(** * TeeworldsGoAPI: token packets, the VarInt decoder and the codecs

    A shallow embedding of the packet builders and parsers of [main.go]
    ([packControlMessageWithToken], [unpackInt], [headerConnectionless],
    [unpackControlMessageWithToken]) together with the parts of the Go
    runtime they rely on: byte slices with a length and a capacity,
    bounds-checked indexing and reslicing, and 64-bit [int] arithmetic.
    The VarInt encoder and the Huffman codec of package [compression]
    are modelled from their specification. *)

From Stdlib Require Import ZArith Lia.
From Stdlib.Strings Require Import Byte.
From stdpp Require Import base tactics option list.

Local Open Scope Z_scope.

(** ** Go runtime *)

Module Go.

(** Run-time faults raised by the bounds checks of the Go runtime. *)
Inductive fault : Type :=
| IndexOutOfRange (i n : nat)          (* index [i] with length [n] *)
| SliceBoundsOutOfRange (k c : nat).   (* bound [k] with capacity or length [c] *)

(** The result of running a function: it returns, it panics, or the
    model's loop budget is exhausted. *)
Inductive outcome (A : Type) : Type :=
| Done (a : A)
| Panic (f : fault)
| OutOfFuel.
Arguments Done {A} a.
Arguments Panic {A} f.
Arguments OutOfFuel {A}.

Definition bind {A B} (m : outcome A) (k : A -> outcome B) : outcome B :=
  match m with
  | Done a => k a
  | Panic f => Panic f
  | OutOfFuel => OutOfFuel
  end.

(** [uint8] values: [u8] reads a byte as a number, [to_byte] is the
    conversion [byte(x)], which keeps the low eight bits. *)
Definition u8 (b : byte) : Z := Z.of_N (Byte.to_N b).

Definition to_byte (z : Z) : byte :=
  default "000"%byte (Byte.of_N (Z.to_N (z mod 256))).

(** [int] is 64 bits wide; arithmetic wraps around in two's complement. *)
Definition int_bits : Z := 64.

Definition wrap (z : Z) : Z :=
  (z + 2 ^ (int_bits - 1)) mod 2 ^ int_bits - 2 ^ (int_bits - 1).

Definition int_add (x y : Z) : Z := wrap (x + y).
Definition int_neg (x : Z) : Z := wrap (- x).
Definition int_shl (x n : Z) : Z := wrap (Z.shiftl x n).
Definition int_shr (x n : Z) : Z := Z.shiftr x n.
Definition int_or (x y : Z) : Z := Z.lor x y.
Definition int_xor (x y : Z) : Z := Z.lxor x y.

(** A byte slice as seen from its first element: [elems] are the
    [len] visible bytes, [spare] is the part of the backing array
    between the length and the capacity. *)
Record slice : Type := Slice { elems : list byte; spare : list byte }.

Definition len (s : slice) : nat := length (elems s).
Definition cap (s : slice) : nat := length (elems s ++ spare s).

(** [make([]byte, n, c)] with [n <= c]. *)
Definition make (n c : nat) : slice :=
  Slice (replicate n "000"%byte) (replicate (c - n) "000"%byte).

(** [s[i]] *)
Definition index (s : slice) (i : nat) : outcome byte :=
  match elems s !! i with
  | Some x => Done x
  | None => Panic (IndexOutOfRange i (len s))
  end.

(** [s[i] = x] *)
Definition store (s : slice) (i : nat) (x : byte) : outcome slice :=
  if decide (i < len s)%nat
  then Done (Slice (<[i := x]> (elems s)) (spare s))
  else Panic (IndexOutOfRange i (len s)).

(** [s[:k]]: the upper bound is checked against the capacity. *)
Definition slice_to (s : slice) (k : nat) : outcome slice :=
  if decide (k <= cap s)%nat
  then Done (Slice (take k (elems s ++ spare s)) (drop k (elems s ++ spare s)))
  else Panic (SliceBoundsOutOfRange k (cap s)).

(** [s[k:]]: the lower bound is checked against the length. *)
Definition slice_from (s : slice) (k : nat) : outcome slice :=
  if decide (k <= len s)%nat
  then Done (Slice (drop k (elems s)) (spare s))
  else Panic (SliceBoundsOutOfRange k (len s)).

(** Control transfer out of a [for] body. *)
Inductive ctl (S : Type) : Type :=
| Break (s : S)
| Continue (s : S).
Arguments Break {S} s.
Arguments Continue {S} s.

(** [for { body }], unrolled at most [fuel] times. *)
Fixpoint for_loop {S} (fuel : nat) (body : S -> outcome (ctl S)) (s : S)
  : outcome S :=
  match fuel with
  | O => OutOfFuel
  | Datatypes.S fuel' =>
      bind (body s) (fun r =>
        match r with
        | Break s' => Done s'
        | Continue s' => for_loop fuel' body s'
        end)
  end.

End Go.

Import Go.

Notation "x <- m ;; k" := (Go.bind m (fun x => k))
  (at level 100, m at next level, right associativity).

(** ** [main.go] *)

(** The two error values built in [main.go]. *)
Inductive error : Type :=
| ErrUnpackLength                 (* "cannot unpack, length of input insufficient" *)
| ErrControlTooSmall (n : nat).   (* "control message is too small, n byte, required 12 byte" *)

Definition netPacketFlagControl : Z := 1.
Definition netControlMessageToken : Z := 5.
Definition netTokenRequestDataSize : nat := 512.
Definition netPacketFlagConnectionless : Z := 8.
Definition netPacketVersion : Z := 1.

Definition packControlMessageWithToken (tokenServer tokenClient : Z)
  : outcome slice :=
  let size := (4 + 3 + netTokenRequestDataSize)%nat in
  let b := make size size in
  (* Header *)
  b <- store b 0 (to_byte (Z.land (Z.shiftl netPacketFlagControl 2) 252)) ;;
  b <- store b 3 (to_byte (int_shr tokenServer 24)) ;;
  b <- store b 4 (to_byte (int_shr tokenServer 16)) ;;
  b <- store b 5 (to_byte (int_shr tokenServer 8)) ;;
  b <- store b 6 (to_byte tokenServer) ;;
  (* Data *)
  b <- store b 7 (to_byte netControlMessageToken) ;;
  b <- store b 8 (to_byte (int_shr tokenClient 24)) ;;
  b <- store b 9 (to_byte (int_shr tokenClient 16)) ;;
  b <- store b 10 (to_byte (int_shr tokenClient 8)) ;;
  b <- store b 11 (to_byte tokenClient) ;;
  Done b.

(** One pass through the body of the [for] of [unpackInt]; the state is
    the pair of [i] and [result]. *)
Definition unpackInt_body (list : slice) (st : nat * Z)
  : outcome (ctl (nat * Z)) :=
  let '(i, result) := st in
  c <- index list i ;;
  if Z.land (u8 c) 128 =? 0 then Done (Break (i, result)) else
  let i := S i in
  c <- index list i ;;
  let result := int_or result (int_shl (Z.land (u8 c) 127) 6) in
  c <- index list i ;;
  if Z.land (u8 c) 128 =? 0 then Done (Break (i, result)) else
  let i := S i in
  c <- index list i ;;
  let result := int_or result (int_shl (Z.land (u8 c) 127) (6 + 7)) in
  c <- index list i ;;
  if Z.land (u8 c) 128 =? 0 then Done (Break (i, result)) else
  let i := S i in
  c <- index list i ;;
  let result := int_or result (int_shl (Z.land (u8 c) 127) (6 + 7 + 7)) in
  c <- index list i ;;
  if Z.land (u8 c) 128 =? 0 then Done (Break (i, result)) else
  let i := S i in
  c <- index list i ;;
  let result := int_or result (int_shl (Z.land (u8 c) 127) (6 + 7 + 7 + 7)) in
  Done (Continue (i, result)).

(** [unpackInt]: the length test sets [err] and falls through. *)
Definition unpackInt (b : slice) : outcome (Z * slice * option error) :=
  let err := if decide (len b < 4)%nat then Some ErrUnpackLength else None in
  list <- slice_to b 4 ;;
  let i := 0%nat in
  c <- index list i ;;
  let sign := Z.land (Z.shiftr (u8 c) 6) 1 in
  c <- index list i ;;
  let result := Z.land (u8 c) 63 in
  st <- for_loop (S (len list)) (unpackInt_body list) (i, result) ;;
  let '(i, result) := st in
  let i := S i in
  let result := int_xor result (int_neg sign) in
  rest <- slice_from b i ;;
  Done (result, rest, err).

Definition headerConnectionless (tokenServer tokenClient : Z) : outcome slice :=
  let b := make 9 9 in
  (* Header *)
  b <- store b 0 (to_byte (Z.lor (Z.land (Z.shiftl netPacketFlagConnectionless 2) 252)
                                 (Z.land netPacketVersion 3))) ;;
  b <- store b 1 (to_byte (int_shr tokenServer 24)) ;;
  b <- store b 2 (to_byte (int_shr tokenServer 16)) ;;
  b <- store b 3 (to_byte (int_shr tokenServer 8)) ;;
  b <- store b 4 (to_byte tokenServer) ;;
  (* ResponseToken *)
  b <- store b 5 (to_byte (int_shr tokenClient 24)) ;;
  b <- store b 6 (to_byte (int_shr tokenClient 16)) ;;
  b <- store b 7 (to_byte (int_shr tokenClient 8)) ;;
  b <- store b 8 (to_byte tokenClient) ;;
  Done b.

(** The result triple is (tokenServer, tokenClient, err); the named
    results are zero when the function returns early. *)
Definition unpackControlMessageWithToken (message : slice)
  : outcome (Z * Z * option error) :=
  if decide (len message < 12)%nat
  then Done (0, 0, Some (ErrControlTooSmall (len message)))
  else
    m3 <- index message 3 ;;
    m4 <- index message 4 ;;
    m5 <- index message 5 ;;
    m6 <- index message 6 ;;
    let tokenClient :=
      int_add (int_add (int_add (int_shl (u8 m3) 24) (int_shl (u8 m4) 16))
                       (int_shl (u8 m5) 8)) (u8 m6) in
    m8 <- index message 8 ;;
    m9 <- index message 9 ;;
    m10 <- index message 10 ;;
    m11 <- index message 11 ;;
    let tokenServer :=
      int_add (int_add (int_add (int_shl (u8 m8) 24) (int_shl (u8 m9) 16))
                       (int_shl (u8 m10) 8)) (u8 m11) in
    Done (tokenServer, tokenClient, None).


(** ** Test helpers: the permutation generator

    [permutate], [calPermutation] and [swap] work on a slice of node
    pointers; the element type is left abstract. The slice is mutated in
    place, so [calPermutation] threads the slice and the result list. *)

Module Permute.
Section Permute.
Context {A : Type}.

(** [arr[i]] *)
Definition get (arr : list A) (i : nat) : outcome A :=
  match arr !! i with
  | Some x => Done x
  | None => Panic (IndexOutOfRange i (length arr))
  end.

(** [arr[i] = x] *)
Definition set (arr : list A) (i : nat) (x : A) : outcome (list A) :=
  if decide (i < length arr)%nat
  then Done (<[i := x]> arr)
  else Panic (IndexOutOfRange i (length arr)).

(** [arr[i], arr[k] = arr[k], arr[i]]: both right-hand sides are read
    before the two stores. *)
Definition swap (arr : list A) (i k : nat) : outcome (list A) :=
  x <- get arr k ;;
  y <- get arr i ;;
  arr <- set arr i x ;;
  arr <- set arr k y ;;
  Done arr.

(** One pass through the body of the [for] of [calPermutation]; the
    state is [(i, arr, res)], [recurse] is the recursive call. *)
Definition calPermutation_body
    (recurse : list A -> list (list A) -> nat -> outcome (list A * list (list A)))
    (k : nat) (st : nat * list A * list (list A))
  : outcome (ctl (nat * list A * list (list A))) :=
  let '(i, arr, res) := st in
  if decide (i < length arr)%nat
  then
    arr <- swap arr i k ;;
    st' <- recurse arr res (S k) ;;
    let '(arr, res) := st' in
    arr <- swap arr k i ;;
    Done (Continue (S i, arr, res))
  else Done (Break (i, arr, res)).

(** [calPermutation(arr, res, k)]; the result is the slice and the
    list behind [res] after the call. *)
Fixpoint calPermutation (fuel : nat) (arr : list A) (res : list (list A)) (k : nat)
  : outcome (list A * list (list A)) :=
  match fuel with
  | O => OutOfFuel
  | S fuel' =>
      st <- for_loop (S (length arr))
              (calPermutation_body (calPermutation fuel') k) (k, arr, res) ;;
      let '(_, arr, res) := st in
      if Z.of_nat k =? Z.of_nat (length arr) - 1
      then
        let r := arr in
        Done (arr, res ++ [r])
      else Done (arr, res)
  end.

(** [permutate(a)]: the slice [a] after the call and the returned list. *)
Definition permutate (a : list A) : outcome (list A * list (list A)) :=
  let res := [] in
  calPermutation (S (length a)) a res 0.

(** The slice with the elements at [i] and [k] exchanged. *)
Definition exchanged (arr : list A) (i k : nat) : list A :=
  match arr !! k, arr !! i with
  | Some x, Some y => <[k := y]> (<[i := x]> arr)
  | _, _ => arr
  end.

(** The arrangements of [arr] that keep its first [k] elements, in the
    order the generator visits them; [d] is the number of elements from
    index [k] on. *)
Fixpoint arrangements (d : nat) (arr : list A) (k : nat) : list (list A) :=
  match d with
  | O => []
  | S d' =>
      concat (map (fun i => arrangements d' (exchanged arr i k) (S k)) (seq k (S d')))
      ++ (if d' is O then [arr] else [])
  end.

End Permute.
End Permute.

(** ** Wire-format notions used to state the properties *)

(** A byte string written as numbers. *)
Definition bytes_of (l : list Z) : list byte := map to_byte l.

(** The error value left by the length test of [unpackInt]. *)
Definition length_error (b : slice) : option error :=
  if decide (len b < 4)%nat then Some ErrUnpackLength else None.

(** The number denoted by a byte string read big-endian (most
    significant byte first). *)
Definition be_value (bs : list byte) : Z :=
  fold_left (fun acc b => acc * 256 + u8 b) bs 0.

(** The [n]-byte big-endian representation of [z] (of its low [8 * n]
    bits). *)
Fixpoint be_bytes (n : nat) (z : Z) : list byte :=
  match n with
  | O => []
  | S n' => be_bytes n' (z / 256) ++ [to_byte z]
  end.

(** The continuation flag (bit 7) and the sign flag (bit 6) of a byte. *)
Definition continues (b : byte) : bool := Z.testbit (u8 b) 7.
Definition sign_flag (b : byte) : bool := Z.testbit (u8 b) 6.

(** A well-formed VarInt encoding: at least one byte, every byte but the
    last has its continuation flag set, the last one has it clear. *)
Fixpoint well_formed (enc : list byte) : bool :=
  match enc with
  | [] => false
  | [b] => negb (continues b)
  | b :: rest => continues b && well_formed rest
  end.

(** The number spelled by 7-bit chunks, least significant chunk first. *)
Fixpoint chunks7 (bs : list byte) : Z :=
  match bs with
  | [] => 0
  | b :: rest => u8 b mod 128 + 128 * chunks7 rest
  end.

(** The magnitude of an encoding: the 6-bit chunk of byte 0, then the
    7-bit chunks of the following bytes in increasing significance. *)
Definition magnitude (enc : list byte) : Z :=
  match enc with
  | [] => 0
  | b :: rest => u8 b mod 64 + 64 * chunks7 rest
  end.

(** The encoded value: the magnitude, bitwise negated when the sign flag
    of byte 0 is set. *)
Definition encoded_value (enc : list byte) : Z :=
  match enc with
  | [] => 0
  | b :: _ => if sign_flag b then Z.lnot (magnitude enc) else magnitude enc
  end.

(** ** Package [compression]: the VarInt encoder

    Package [compression] is known through its tests and its
    specification; the encoder is modelled from the specification of
    the VarInt codec. *)

Module VarInt.

(** Modelled from the spec: the one's-complement fold of [VarInt.Pack];
    a negative value is stored as its bitwise negation with the sign
    flag set. *)
Definition fold_sign (value : Z) : bool * Z :=
  if value <? 0 then (true, Z.lnot value) else (false, value).

(** Modelled from the spec: the bytes 1..4 of [VarInt.Pack]; each holds
    the next 7 magnitude bits, with bit 7 set when more bytes follow. *)
Fixpoint chunks (n : nat) (magnitude : Z) : list byte :=
  match n with
  | O => []
  | S n' =>
      let rest := magnitude / 128 in
      if rest =? 0
      then [to_byte (magnitude mod 128)]
      else to_byte (128 + magnitude mod 128) :: chunks n' rest
  end.

(** Modelled from the spec: the encoding produced by [VarInt.Pack];
    byte 0 holds the continuation flag, the sign flag and the low 6
    magnitude bits, followed by up to four 7-bit chunks. *)
Definition encode (value : Z) : list byte :=
  let '(sign, magnitude) := fold_sign value in
  let flag := if sign then 64 else 0 in
  let rest := magnitude / 64 in
  if rest =? 0
  then [to_byte (flag + magnitude mod 64)]
  else to_byte (128 + flag + magnitude mod 64) :: chunks 4 rest.

(** Modelled from the spec: [VarInt.Pack] appends the encoding of the
    value to the buffer and keeps the prior content. *)
Definition Pack (buffer : list byte) (value : Z) : list byte :=
  buffer ++ encode value.

End VarInt.

(** ** Package [compression]: the canonical Huffman codec

    Like the VarInt encoder, the codec is modelled from its
    specification. The default frequency table is a constant of the
    package whose values the specification leaves open; it is a
    parameter of [Init]. *)

Module Huffman.

(** Modelled from the spec: the end-of-message sentinel symbol that
    follows the 256 byte values in the alphabet of the missing codec. *)
Definition eof_symbol : nat := 256.

(** Modelled from the spec: the size of the alphabet (256 byte values
    and the sentinel). *)
Definition max_symbols : nat := 257.

(** Modelled from the spec: the fixed non-zero frequency of the
    sentinel. *)
Definition eof_frequency : nat := 1.

(** Modelled from the spec: the Huffman tree; the first child is
    reached by bit 0, the second by bit 1. *)
Inductive tree : Type :=
| Leaf (symbol : nat)
| Node (zero one : tree).

(** Modelled from the spec: the Huffman construction node, a node
    paired with a frequency. *)
Record construct_node : Type :=
  ConstructNode { node : tree; frequency : nat }.

(** Modelled from the spec: the error of [Decompress]. *)
Inductive error : Type := TruncatedStream.

(** Modelled from the spec: step 1 of the tree construction, one leaf
    per symbol with its frequency from the table. *)
Definition initial_nodes (table : list nat) : list construct_node :=
  map (fun s =>
         ConstructNode (Leaf s)
           (if decide (s = eof_symbol) then eof_frequency
            else default 0%nat (table !! s)))
      (seq 0 max_symbols).

(** Modelled from the spec: insertion into a list sorted by frequency
    descending; the new node goes before the nodes of equal frequency. *)
Fixpoint insert_sorted (x : construct_node) (l : list construct_node)
  : list construct_node :=
  match l with
  | [] => [x]
  | y :: l' =>
      if (frequency y <=? frequency x)%nat
      then x :: y :: l'
      else y :: insert_sorted x l'
  end.

(** Modelled from the spec: the stable sort by frequency descending of
    step 2. *)
Definition sort_descending (l : list construct_node) : list construct_node :=
  foldr insert_sorted [] l.

(** Modelled from the spec: the internal node built from the two
    lowest-frequency nodes. *)
Definition combine (a b : construct_node) : construct_node :=
  ConstructNode (Node (node a) (node b)) (frequency a + frequency b).

(** Modelled from the spec: one round of step 2; sort, remove the last
    two nodes, insert their combination. *)
Definition merge_lowest (nodes : list construct_node) : list construct_node :=
  match reverse (sort_descending nodes) with
  | a :: b :: others => reverse others ++ [combine a b]
  | _ => nodes
  end.

(** Modelled from the spec: step 2 of the tree construction, repeated
    until one node remains. *)
Fixpoint construct (fuel : nat) (nodes : list construct_node) : option tree :=
  match fuel with
  | O => None
  | S fuel' =>
      match nodes with
      | [] => None
      | [root] => Some (node root)
      | _ => construct fuel' (merge_lowest nodes)
      end
  end.

(** Modelled from the spec: step 3 of the tree construction, the bit
    path of every leaf. *)
Fixpoint assign_codes (t : tree) (path : list bool) : list (nat * list bool) :=
  match t with
  | Leaf s => [(s, path)]
  | Node zero one =>
      assign_codes zero (path ++ [false]) ++ assign_codes one (path ++ [true])
  end.

(** Modelled from the spec: a ready Huffman instance, the tree and the
    codes of its leaves. *)
Record huffman : Type :=
  Ready { root : tree; codes : list (nat * list bool) }.

(** Modelled from the spec: [Huffman.Init]; an empty table selects the
    default table. *)
Definition Init (default_table table : list nat) : option huffman :=
  let table := match table with [] => default_table | _ => table end in
  let nodes := initial_nodes table in
  t ← construct (length nodes) nodes;
  Some (Ready t (assign_codes t [])).

(** Modelled from the spec: the code of a symbol. *)
Fixpoint lookup_code (codes : list (nat * list bool)) (s : nat) : list bool :=
  match codes with
  | [] => []
  | (s', path) :: codes' => if decide (s' = s) then path else lookup_code codes' s
  end.

(** Modelled from the spec: eight bits, most significant first, as a
    byte. *)
Definition byte_of_bits (bits : list bool) : byte :=
  to_byte (fold_left (fun acc (bit : bool) => 2 * acc + (if bit then 1 else 0)) bits 0).

(** Modelled from the spec: the output bitstream as bytes, the final
    partial byte padded with zero bits. *)
Fixpoint pack_bits (bits : list bool) : list byte :=
  match bits with
  | b7 :: b6 :: b5 :: b4 :: b3 :: b2 :: b1 :: b0 :: rest =>
      byte_of_bits [b7; b6; b5; b4; b3; b2; b1; b0] :: pack_bits rest
  | [] => []
  | partial => [byte_of_bits (take 8 (partial ++ replicate 7 false))]
  end.

(** Modelled from the spec: the bits of a byte, most significant
    first. *)
Definition bits_of_byte (b : byte) : list bool :=
  map (Z.testbit (u8 b)) [7; 6; 5; 4; 3; 2; 1; 0].

(** Modelled from the spec: [Huffman.Compress]; the codes of the input
    bytes, then the code of the sentinel. *)
Definition Compress (h : huffman) (input : list byte) : list byte :=
  pack_bits
    (concat (map (fun b => lookup_code (codes h) (Z.to_nat (u8 b))) input) ++
     lookup_code (codes h) eof_symbol).

(** Modelled from the spec: the walk of [Huffman.Decompress] from the
    node [cur]; a data leaf emits its byte and returns to the root,
    the sentinel leaf stops, the end of the bits is an error. *)
Fixpoint walk (root cur : tree) (bits : list bool) (emitted : list byte)
  : error + list byte :=
  match bits with
  | [] => inl TruncatedStream
  | bit :: rest =>
      match cur with
      | Leaf _ => inl TruncatedStream
      | Node zero one =>
          match (if bit : bool then one else zero) with
          | Leaf s =>
              if decide (s = eof_symbol)
              then inr (reverse emitted)
              else walk root root rest (to_byte (Z.of_nat s) :: emitted)
          | next => walk root next rest emitted
          end
      end
  end.

(** Modelled from the spec: [Huffman.Decompress]. *)
Definition Decompress (h : huffman) (input : list byte) : error + list byte :=
  walk (root h) (root h) (concat (map bits_of_byte input)) [].

End Huffman.

(** ** Paths and leaves of a Huffman tree *)

Module HuffmanTree.
Import Huffman.

(** The symbol reached from [t] along a bit path that ends on a leaf. *)
Fixpoint follow (t : tree) (path : list bool) : option nat :=
  match t, path with
  | Leaf s, [] => Some s
  | Node zero one, bit :: path' => follow (if bit : bool then one else zero) path'
  | _, _ => None
  end.

(** The symbols of the leaves of a tree, in bit-path order. *)
Fixpoint leaves (t : tree) : list nat :=
  match t with
  | Leaf s => [s]
  | Node zero one => leaves zero ++ leaves one
  end.

(** The symbols of all leaves of a list of construction nodes. *)
Definition forest_leaves (nodes : list construct_node) : list nat :=
  nodes ≫= (fun n => leaves (node n)).

End HuffmanTree.

(** ** Proof automation *)

(** Bounds on the length and capacity of explicit slices. *)
Ltac slice_bounds :=
  unfold len, cap in *; cbn [elems spare length app] in *; lia.

(** [lia] after turning the divisions and remainders by constants into
    their defining equations. *)
Ltac divmod_lia := Z.to_euclidean_division_equations; lia.

(** * Properties *)

(** ** Bytes and machine integers *)

Lemma u8_range (b : byte) : 0 <= u8 b < 256.
Proof.
  unfold u8. pose proof (Byte.to_N_bounded b) as Hb. lia.
Qed.

Lemma to_byte_u8 (b : byte) : to_byte (u8 b) = b.
Proof.
  unfold to_byte. rewrite Z.mod_small by apply u8_range.
  unfold u8. rewrite N2Z.id, Byte.of_to_N. reflexivity.
Qed.

Lemma u8_to_byte (z : Z) : u8 (to_byte z) = z mod 256.
Proof.
  unfold to_byte, u8.
  assert (Hr : 0 <= z mod 256 < 256) by (apply Z.mod_pos_bound; lia).
  destruct (Byte.of_N (Z.to_N (z mod 256))) as [b|] eqn:E.
  - apply Byte.to_of_N in E. simpl. rewrite E. lia.
  - apply Byte.of_N_None_iff in E. lia.
Qed.

Lemma wrap_small (z : Z) : - 2 ^ 63 <= z < 2 ^ 63 -> wrap z = z.
Proof.
  intros Hz. unfold wrap, int_bits.
  change (64 - 1) with 63. rewrite Z.mod_small; lia.
Qed.

Lemma int_shl_u8 (b : byte) (n : Z) :
  0 <= n <= 32 -> int_shl (u8 b) n = u8 b * 2 ^ n.
Proof.
  intros Hn. unfold int_shl. rewrite Z.shiftl_mul_pow2 by lia.
  pose proof (u8_range b) as Hb.
  assert (0 < 2 ^ n <= 2 ^ 32) by
    (split; [apply Z.pow_pos_nonneg; lia | apply Z.pow_le_mono_r; lia]).
  apply wrap_small. nia.
Qed.

(** ** Big-endian strings *)

Lemma be_value_snoc (bs : list byte) (b : byte) :
  be_value (bs ++ [b]) = be_value bs * 256 + u8 b.
Proof. unfold be_value. rewrite fold_left_app. reflexivity. Qed.

Lemma be_value_bounds (bs : list byte) :
  0 <= be_value bs < 256 ^ Z.of_nat (length bs).
Proof.
  induction bs as [|b bs IH] using rev_ind.
  - cbn. lia.
  - rewrite be_value_snoc, length_app. cbn [length].
    replace (Z.of_nat (length bs + 1)) with (Z.of_nat (length bs) + 1) by lia.
    rewrite Z.pow_add_r by lia. pose proof (u8_range b). lia.
Qed.

Lemma length_be_bytes (n : nat) (z : Z) : length (be_bytes n z) = n.
Proof.
  revert z. induction n as [|n IH]; intros z; cbn; [reflexivity|].
  rewrite length_app, IH. cbn. lia.
Qed.

Lemma be_value_be_bytes (n : nat) (z : Z) :
  be_value (be_bytes n z) = z mod 256 ^ Z.of_nat n.
Proof.
  revert z. induction n as [|n IH]; intros z.
  - cbn. rewrite Z.mod_1_r. reflexivity.
  - cbn [be_bytes]. rewrite be_value_snoc, IH, u8_to_byte.
    replace (Z.of_nat (S n)) with (1 + Z.of_nat n) by lia.
    rewrite Z.pow_add_r by lia. change (256 ^ 1) with 256.
    rewrite Z.rem_mul_r by (try apply Z.pow_nonzero; lia). lia.
Qed.

Lemma be_value_be_bytes_small (n : nat) (z : Z) :
  0 <= z < 256 ^ Z.of_nat n -> be_value (be_bytes n z) = z.
Proof. intros Hz. rewrite be_value_be_bytes. apply Z.mod_small, Hz. Qed.

Lemma be_bytes_4 (z : Z) :
  be_bytes 4 z =
  [to_byte (int_shr z 24); to_byte (int_shr z 16); to_byte (int_shr z 8); to_byte z].
Proof.
  unfold int_shr. rewrite !Z.shiftr_div_pow2 by lia.
  cbn [be_bytes app]. rewrite !Z.div_div by lia. reflexivity.
Qed.

(** ** Token packets *)

(** The buffer written by [packControlMessageWithToken], byte by byte. *)
Lemma packControlMessageWithToken_bytes (tokenServer tokenClient : Z) :
  packControlMessageWithToken tokenServer tokenClient =
  Done (Slice ([to_byte 4; to_byte 0; to_byte 0] ++ be_bytes 4 tokenServer ++
               [to_byte 5] ++ be_bytes 4 tokenClient ++
               replicate 507 (to_byte 0)) []).
Proof.
  rewrite !be_bytes_4. unfold packControlMessageWithToken.
  generalize (to_byte (int_shr tokenServer 24)) (to_byte (int_shr tokenServer 16))
    (to_byte (int_shr tokenServer 8)) (to_byte tokenServer)
    (to_byte (int_shr tokenClient 24)) (to_byte (int_shr tokenClient 16))
    (to_byte (int_shr tokenClient 8)) (to_byte tokenClient).
  intros s3 s2 s1 s0 c3 c2 c1 c0. vm_compute. reflexivity.
Qed.

Lemma headerConnectionless_bytes (tokenServer tokenClient : Z) :
  headerConnectionless tokenServer tokenClient =
  Done (Slice ([to_byte 33] ++ be_bytes 4 tokenServer ++ be_bytes 4 tokenClient) []).
Proof.
  rewrite !be_bytes_4. unfold headerConnectionless.
  generalize (to_byte (int_shr tokenServer 24)) (to_byte (int_shr tokenServer 16))
    (to_byte (int_shr tokenServer 8)) (to_byte tokenServer)
    (to_byte (int_shr tokenClient 24)) (to_byte (int_shr tokenClient 16))
    (to_byte (int_shr tokenClient 8)) (to_byte tokenClient).
  intros s3 s2 s1 s0 c3 c2 c1 c0. vm_compute. reflexivity.
Qed.

(** The sum computed for a token from four message bytes is their
    big-endian value. *)
Lemma token_sum_be (a b c d : byte) :
  int_add (int_add (int_add (int_shl (u8 a) 24) (int_shl (u8 b) 16))
                   (int_shl (u8 c) 8)) (u8 d) =
  be_value [a; b; c; d].
Proof.
  rewrite !int_shl_u8 by lia. unfold int_add, be_value. cbn [fold_left].
  pose proof (u8_range a). pose proof (u8_range b).
  pose proof (u8_range c). pose proof (u8_range d).
  rewrite (wrap_small (u8 a * 2 ^ 24 + u8 b * 2 ^ 16)) by lia.
  rewrite (wrap_small (u8 a * 2 ^ 24 + u8 b * 2 ^ 16 + u8 c * 2 ^ 8)) by lia.
  rewrite wrap_small by lia. lia.
Qed.

Lemma unpackControlMessageWithToken_long (m : list byte) (sp : list byte) :
  (12 <= length m)%nat ->
  unpackControlMessageWithToken (Slice m sp) =
  Done (be_value (take 4 (drop 8 m)), be_value (take 4 (drop 3 m)), None).
Proof.
  intros Hlen.
  do 12 (destruct m as [|? m]; [cbn in Hlen; lia|]).
  unfold unpackControlMessageWithToken.
  destruct (decide (len _ < 12)%nat) as [Hlt|_].
  { unfold len in Hlt. cbn in Hlt. lia. }
  cbn [index elems lookup list_lookup bind take drop].
  rewrite !token_sum_be. reflexivity.
Qed.

(** C6: [unpackControlMessageWithToken] returns the length error exactly
    on messages shorter than 12 bytes; on every longer message it
    returns without error the client token read big-endian from bytes
    3..6 and the server token read big-endian from bytes 8..11 (the
    result triple is (tokenServer, tokenClient, err)). *)
Theorem unpackControlMessageWithToken_spec (message : slice) :
  unpackControlMessageWithToken message =
  if decide (len message < 12)%nat
  then Done (0, 0, Some (ErrControlTooSmall (len message)))
  else Done (be_value (take 4 (drop 8 (elems message))),
             be_value (take 4 (drop 3 (elems message))),
             None).
Proof.
  destruct message as [m sp].
  destruct (decide (len (Slice m sp) < 12)%nat) as [Hlt|Hge].
  - unfold unpackControlMessageWithToken.
    destruct (decide (len (Slice m sp) < 12)%nat); [reflexivity|lia].
  - apply unpackControlMessageWithToken_long.
    unfold len in Hge. cbn [elems] in *. lia.
Qed.

(** C7: [packControlMessageWithToken] returns a buffer of exactly
    4+3+512 = 519 bytes: byte 0 is the control flag byte (4), bytes 3..6
    are the server token big-endian, byte 7 is the subtype (5), bytes
    8..11 are the client token big-endian, and all other bytes are zero.
    The four token bytes hold the low 32 bits of the token. *)
Theorem packControlMessageWithToken_layout (tokenServer tokenClient : Z) :
  exists b : slice,
    packControlMessageWithToken tokenServer tokenClient = Done b /\
    len b = 519%nat /\ cap b = 519%nat /\
    elems b =
      [to_byte (netPacketFlagControl * 4); to_byte 0; to_byte 0] ++
      be_bytes 4 tokenServer ++ [to_byte netControlMessageToken] ++
      be_bytes 4 tokenClient ++ replicate 507 (to_byte 0) /\
    be_value (take 4 (drop 3 (elems b))) = tokenServer mod 2 ^ 32 /\
    be_value (take 4 (drop 8 (elems b))) = tokenClient mod 2 ^ 32.
Proof.
  eexists. split; [apply packControlMessageWithToken_bytes|].
  pose proof (length_be_bytes 4 tokenServer) as Hs.
  pose proof (length_be_bytes 4 tokenClient) as Hc.
  pose proof (be_value_be_bytes 4 tokenServer) as Vs.
  pose proof (be_value_be_bytes 4 tokenClient) as Vc.
  destruct (be_bytes 4 tokenServer) as [|s3 [|s2 [|s1 [|s0 [|]]]]]; try discriminate.
  destruct (be_bytes 4 tokenClient) as [|c3 [|c2 [|c1 [|c0 [|]]]]]; try discriminate.
  repeat split; assumption.
Qed.

(** C8: [headerConnectionless] returns a buffer of exactly 9 bytes: byte
    0 is ((flag << 2) & 0xFC) | (version & 0x03) = 33, bytes 1..4 are the
    server token big-endian and bytes 5..8 the client (response) token
    big-endian. The four token bytes hold the low 32 bits of the token. *)
Theorem headerConnectionless_layout (tokenServer tokenClient : Z) :
  exists b : slice,
    headerConnectionless tokenServer tokenClient = Done b /\
    len b = 9%nat /\ cap b = 9%nat /\
    elems b =
      [to_byte (Z.lor (Z.land (netPacketFlagConnectionless * 2 ^ 2) 252)
                      (netPacketVersion mod 4))] ++
      be_bytes 4 tokenServer ++ be_bytes 4 tokenClient /\
    be_value (take 4 (drop 1 (elems b))) = tokenServer mod 2 ^ 32 /\
    be_value (take 4 (drop 5 (elems b))) = tokenClient mod 2 ^ 32.
Proof.
  eexists. split; [apply headerConnectionless_bytes|].
  pose proof (length_be_bytes 4 tokenServer) as Hs.
  pose proof (length_be_bytes 4 tokenClient) as Hc.
  pose proof (be_value_be_bytes 4 tokenServer) as Vs.
  pose proof (be_value_be_bytes 4 tokenClient) as Vc.
  destruct (be_bytes 4 tokenServer) as [|s3 [|s2 [|s1 [|s0 [|]]]]]; try discriminate.
  destruct (be_bytes 4 tokenClient) as [|c3 [|c2 [|c1 [|c0 [|]]]]]; try discriminate.
  repeat split; assumption.
Qed.

(** C10: for tokens s and c in 0..2^32-1, parsing the packet built by
    [packControlMessageWithToken s c] succeeds and returns tokenServer =
    c and tokenClient = s: the roles are swapped. *)
Theorem unpack_pack_control_swaps (s c : Z) :
  0 <= s < 2 ^ 32 -> 0 <= c < 2 ^ 32 ->
  exists b : slice,
    packControlMessageWithToken s c = Done b /\
    unpackControlMessageWithToken b = Done (c, s, None).
Proof.
  intros Hs Hc. eexists. split; [apply packControlMessageWithToken_bytes|].
  rewrite unpackControlMessageWithToken_long.
  2:{ rewrite !length_app, !length_be_bytes. cbn. lia. }
  pose proof (length_be_bytes 4 s) as Ls.
  pose proof (length_be_bytes 4 c) as Lc.
  pose proof (be_value_be_bytes_small 4 s Hs) as Vs.
  pose proof (be_value_be_bytes_small 4 c Hc) as Vc.
  destruct (be_bytes 4 s) as [|s3 [|s2 [|s1 [|s0 [|]]]]]; try discriminate.
  destruct (be_bytes 4 c) as [|c3 [|c2 [|c1 [|c0 [|]]]]]; try discriminate.
  cbn [app take drop]. rewrite take_0, Vs, Vc. reflexivity.
Qed.

Lemma unpack_pack_control_swaps_witness :
  0 <= 305419896 < 2 ^ 32 /\ 0 <= 2596069104 < 2 ^ 32 /\
  exists b : slice,
    packControlMessageWithToken 305419896 2596069104 = Done b /\
    unpackControlMessageWithToken b = Done (2596069104, 305419896, None).
Proof.
  split; [lia|]. split; [lia|].
  apply (unpack_pack_control_swaps 305419896 2596069104); lia.
Defined.

(** ** The VarInt decoder *)

Lemma continuation_test (c : byte) :
  (Z.land (u8 c) 128 =? 0) = negb (continues c).
Proof. destruct c; reflexivity. Qed.

Lemma sign_extract (c : byte) :
  Z.land (Z.shiftr (u8 c) 6) 1 = if sign_flag c then 1 else 0.
Proof. destruct c; reflexivity. Qed.

Lemma low6 (c : byte) : Z.land (u8 c) 63 = u8 c mod 64.
Proof. apply (Z.land_ones (u8 c) 6). lia. Qed.

Lemma low7 (c : byte) : Z.land (u8 c) 127 = u8 c mod 128.
Proof. apply (Z.land_ones (u8 c) 7). lia. Qed.

Lemma lor_disjoint (r c k : Z) :
  0 <= k -> 0 <= r < 2 ^ k -> Z.lor r (c * 2 ^ k) = r + c * 2 ^ k.
Proof.
  intros Hk Hr.
  assert (Hland : Z.land r (c * 2 ^ k) = 0).
  { apply Z.bits_inj'. intros n Hn.
    rewrite Z.land_spec, Z.bits_0.
    destruct (Z.lt_ge_cases n k) as [Hlt|Hge].
    - rewrite Z.mul_pow2_bits_low by lia. apply andb_false_r.
    - assert (Hb : Z.testbit r n = false).
      { destruct (Z.eq_dec r 0) as [->|Hnz]; [apply Z.bits_0|].
        apply Z.bits_above_log2; [lia|].
        apply Z.log2_lt_pow2; [lia|].
        apply Z.lt_le_trans with (2 ^ k); [lia|].
        apply Z.pow_le_mono_r; lia. }
      rewrite Hb. reflexivity. }
  rewrite <- Z.lxor_lor by exact Hland.
  symmetry. apply Z.add_nocarry_lxor, Hland.
Qed.

(** [result |= int(c & 0x7f) << k] adds the chunk when [result] is
    below [2 ^ k]. *)
Lemma or_chunk (r : Z) (c : byte) (k : Z) :
  0 <= k <= 27 -> 0 <= r < 2 ^ k ->
  int_or r (int_shl (Z.land (u8 c) 127) k) = r + u8 c mod 128 * 2 ^ k.
Proof.
  intros Hk Hr. rewrite low7. unfold int_or, int_shl.
  rewrite Z.shiftl_mul_pow2 by lia.
  assert (Hc : 0 <= u8 c mod 128 < 128) by (apply Z.mod_pos_bound; lia).
  assert (Hp : 0 < 2 ^ k <= 2 ^ 27) by
    (split; [apply Z.pow_pos_nonneg; lia | apply Z.pow_le_mono_r; lia]).
  rewrite wrap_small by nia.
  apply lor_disjoint; lia.
Qed.

(** [result ^= -sign] *)
Lemma xor_sign (r : Z) (c : byte) :
  int_xor r (int_neg (if sign_flag c then 1 else 0)) =
  if sign_flag c then Z.lnot r else r.
Proof.
  unfold int_xor, int_neg. destruct (sign_flag c).
  - change (wrap (- 1)) with (-1). apply Z.lxor_m1_r.
  - change (wrap (- 0)) with 0. apply Z.lxor_0_r.
Qed.

Lemma chunk_range (c : byte) (m : Z) : 0 < m -> 0 <= u8 c mod m < m.
Proof. intros Hm. apply Z.mod_pos_bound, Hm. Qed.



(** What [unpackInt] does on a slice whose backing array holds at least
    four bytes [x0 x1 x2 x3] from the start of the slice: it leaves the
    loop at the first byte without continuation flag, and faults on the
    fifth index when all four have it. *)
Lemma unpackInt_cases (m sp : list byte) (x0 x1 x2 x3 : byte) (r : list byte) :
  m ++ sp = x0 :: x1 :: x2 :: x3 :: r ->
  unpackInt (Slice m sp) =
  if negb (continues x0)
  then rest <- slice_from (Slice m sp) 1 ;;
       Done (encoded_value [x0], rest, length_error (Slice m sp))
  else if negb (continues x1)
  then rest <- slice_from (Slice m sp) 2 ;;
       Done (encoded_value [x0; x1], rest, length_error (Slice m sp))
  else if negb (continues x2)
  then rest <- slice_from (Slice m sp) 3 ;;
       Done (encoded_value [x0; x1; x2], rest, length_error (Slice m sp))
  else if negb (continues x3)
  then rest <- slice_from (Slice m sp) 4 ;;
       Done (encoded_value [x0; x1; x2; x3], rest, length_error (Slice m sp))
  else Panic (IndexOutOfRange 4 4).
Proof.
  intros Hback.
  pose proof (chunk_range x0 64 eq_refl) as H0.
  pose proof (chunk_range x1 128 eq_refl) as H1.
  pose proof (chunk_range x2 128 eq_refl) as H2.
  pose proof (chunk_range x3 128 eq_refl) as H3.
  unfold unpackInt. fold (length_error (Slice m sp)).
  generalize (length_error (Slice m sp)) as err. intros err.
  unfold slice_to, cap. cbn [elems spare]. rewrite Hback.
  destruct (decide (4 <= length _)%nat) as [_|Hcap]; [|cbn [length] in Hcap; lia].
  cbn [elems spare app take drop bind index lookup list_lookup len length
       for_loop unpackInt_body].
  rewrite take_0, !continuation_test, sign_extract, low6.
  change (6 + 7 + 7) with 20. change (6 + 7) with 13.
  rewrite (or_chunk _ x1 6) by lia.
  rewrite (or_chunk _ x2 13) by lia.
  rewrite (or_chunk _ x3 20) by lia.
  unfold encoded_value, magnitude. cbn [chunks7].
  destruct (continues x0); cbn [negb bind].
  2:{ rewrite xor_sign. destruct (slice_from _ _); cbn [bind]; try reflexivity.
      unfold Z.lnot. destruct (sign_flag x0); repeat f_equal; lia. }
  destruct (continues x1); cbn [negb bind].
  2:{ rewrite xor_sign. destruct (slice_from _ _); cbn [bind]; try reflexivity.
      unfold Z.lnot. destruct (sign_flag x0); do 3 f_equal; lia. }
  destruct (continues x2); cbn [negb bind].
  2:{ rewrite xor_sign. destruct (slice_from _ _); cbn [bind]; try reflexivity.
      unfold Z.lnot. destruct (sign_flag x0); do 3 f_equal; lia. }
  destruct (continues x3); cbn [negb bind].
  2:{ rewrite xor_sign. destruct (slice_from _ _); cbn [bind]; try reflexivity.
      unfold Z.lnot. destruct (sign_flag x0); do 3 f_equal; lia. }
  reflexivity.
Qed.

(** [unpackInt] always returns or faults: the loop budget of the model
    is never exhausted. *)
Lemma unpackInt_terminates (b : slice) : unpackInt b <> OutOfFuel.
Proof.
  destruct b as [m sp].
  destruct (decide (4 <= cap (Slice m sp))%nat) as [Hcap|Hcap].
  - unfold cap in Hcap. cbn [elems spare] in Hcap.
    destruct (m ++ sp) as [|x0 [|x1 [|x2 [|x3 r]]]] eqn:Hback;
      cbn [length] in Hcap; try lia.
    rewrite (unpackInt_cases _ _ _ _ _ _ _ Hback). unfold slice_from.
    repeat (destruct (negb _)); repeat (destruct (decide _)); discriminate.
  - unfold unpackInt, slice_to.
    destruct (decide (4 <= cap _)%nat); [contradiction|discriminate].
Qed.

(** A slice whose capacity is below four makes [unpackInt] fault at
    [b[:4]], whatever its length. *)
Lemma unpackInt_small_capacity (b : slice) :
  (cap b < 4)%nat -> unpackInt b = Panic (SliceBoundsOutOfRange 4 (cap b)).
Proof.
  intros Hcap. unfold unpackInt, slice_to.
  destruct (decide (4 <= cap b)%nat); [lia|reflexivity].
Qed.

(** Every buffer whose first four bytes all carry the continuation flag
    makes [unpackInt] fault at [list[4]]. *)
Lemma unpackInt_five_bytes_fault (x0 x1 x2 x3 : byte) (r sp : list byte) :
  continues x0 = true -> continues x1 = true ->
  continues x2 = true -> continues x3 = true ->
  unpackInt (Slice (x0 :: x1 :: x2 :: x3 :: r) sp) = Panic (IndexOutOfRange 4 4).
Proof.
  intros C0 C1 C2 C3.
  rewrite (unpackInt_cases (x0 :: x1 :: x2 :: x3 :: r) sp x0 x1 x2 x3 (r ++ sp) eq_refl).
  rewrite C0, C1, C2, C3. reflexivity.
Qed.

(** A well-formed encoding of one to four bytes at the front of a buffer
    of at least four bytes is decoded and removed. *)
Lemma unpackInt_prefix (enc tail sp : list byte) :
  well_formed enc = true ->
  (length enc <= 4)%nat ->
  (4 <= length (enc ++ tail))%nat ->
  unpackInt (Slice (enc ++ tail) sp) =
  Done (encoded_value enc, Slice tail sp, None).
Proof.
  intros Hwf Hle Hlen.
  assert (Herr : length_error (Slice (enc ++ tail) sp) = None).
  { unfold length_error. destruct (decide _) as [Hlt|_]; [|reflexivity].
    unfold len in Hlt. cbn [elems] in Hlt. lia. }
  destruct enc as [|b0 [|b1 [|b2 [|b3 [|b4 enc]]]]];
    cbn [length] in Hle; try lia; try discriminate Hwf;
    cbn [well_formed] in Hwf; rewrite ?andb_true_iff, ?negb_true_iff in Hwf.
  - destruct tail as [|t1 [|t2 [|t3 tail]]]; cbn [length app] in Hlen; try lia.
    cbn [app] in *.
    rewrite (unpackInt_cases (b0 :: t1 :: t2 :: t3 :: tail) sp b0 t1 t2 t3 (tail ++ sp) eq_refl).
    rewrite Herr, Hwf.
    reflexivity.
  - destruct Hwf as [C0 C1].
    destruct tail as [|t2 [|t3 tail]]; cbn [length app] in Hlen; try lia.
    cbn [app] in *.
    rewrite (unpackInt_cases (b0 :: b1 :: t2 :: t3 :: tail) sp b0 b1 t2 t3 (tail ++ sp) eq_refl).
    rewrite Herr, C0, C1.
    reflexivity.
  - destruct Hwf as (C0 & C1 & C2).
    destruct tail as [|t3 tail]; cbn [length app] in Hlen; try lia.
    cbn [app] in *.
    rewrite (unpackInt_cases (b0 :: b1 :: b2 :: t3 :: tail) sp b0 b1 b2 t3 (tail ++ sp) eq_refl).
    rewrite Herr, C0, C1, C2.
    reflexivity.
  - destruct Hwf as (C0 & C1 & C2 & C3).
    cbn [app] in *.
    rewrite (unpackInt_cases (b0 :: b1 :: b2 :: b3 :: tail) sp b0 b1 b2 b3 (tail ++ sp) eq_refl).
    rewrite Herr, C0, C1, C2, C3.
    reflexivity.
Qed.

(** C1: on a buffer of at least four bytes that starts with a
    well-formed encoding [enc] of one to four bytes, [unpackInt] returns
    the encoded value of [enc] (its magnitude, bitwise negated when the
    sign flag is set), the buffer without those bytes, and no error. *)
Theorem unpackInt_decodes (enc tail sp : list byte) :
  well_formed enc = true ->
  (length enc <= 4)%nat ->
  (4 <= length (enc ++ tail))%nat ->
  unpackInt (Slice (enc ++ tail) sp) =
  Done (encoded_value enc, Slice tail sp, None).
Proof. apply unpackInt_prefix. Qed.

Lemma unpackInt_decodes_witness :
  well_formed (bytes_of [193; 127]%Z) = true /\
  (length (bytes_of [193; 127]%Z) <= 4)%nat /\
  (4 <= length (bytes_of [193; 127]%Z ++ bytes_of [7; 8]%Z))%nat /\
  unpackInt (Slice (bytes_of [193; 127]%Z ++ bytes_of [7; 8]%Z) []) =
  Done (encoded_value (bytes_of [193; 127]%Z), Slice (bytes_of [7; 8]%Z) [], None).
Proof.
  split; [reflexivity|]. split; [cbn; lia|]. split; [cbn; lia|].
  apply (unpackInt_decodes (bytes_of [193; 127]%Z) (bytes_of [7; 8]%Z) []);
    [reflexivity | cbn; lia | cbn; lia].
Defined.

Example encoded_value_c1_7f : encoded_value (bytes_of [193; 127]%Z) = -8130.
Proof. reflexivity. Qed.

(** C2: on the empty buffer (length and capacity 0) [unpackInt] does not
    return the insufficient-data error: the reslice [b[:4]] faults. On
    the one-byte buffer [0x80] with capacity 4 it reads the byte stored
    after the end of the buffer and then faults at [b[2:]]. *)
Theorem unpackInt_short_buffer_faults :
  unpackInt (Slice [] []) = Panic (SliceBoundsOutOfRange 4 0) /\
  unpackInt (Slice (bytes_of [128]) (bytes_of [1; 0; 0])) =
    Panic (SliceBoundsOutOfRange 2 1).
Proof. split; vm_compute; reflexivity. Qed.

(** C3: on the five-byte encoding of 604508192 (continuation flag set
    in bytes 0..3) [unpackInt] does not return the value: reading the
    fifth byte faults, because the decoder works on [b[:4]]. *)
Theorem unpackInt_five_byte_encoding_faults :
  well_formed (bytes_of [160; 192; 192; 192; 4]) = true /\
  encoded_value (bytes_of [160; 192; 192; 192; 4]) = 604508192 /\
  unpackInt (Slice (bytes_of [160; 192; 192; 192; 4]) []) =
    Panic (IndexOutOfRange 4 4).
Proof. repeat split; vm_compute; reflexivity. Qed.

(** When [unpackControlMessageWithToken] reports an error, both tokens
    are zero. *)
Lemma unpackControlMessageWithToken_error (message : slice)
    (tokenServer tokenClient : Z) (e : error) :
  unpackControlMessageWithToken message = Done (tokenServer, tokenClient, Some e) ->
  tokenServer = 0 /\ tokenClient = 0 /\ (len message < 12)%nat.
Proof.
  destruct message as [m sp].
  destruct (decide (len (Slice m sp) < 12)%nat) as [Hlt|Hge].
  - unfold unpackControlMessageWithToken.
    destruct (decide _); [|contradiction]. intros [= <- <-]. auto.
  - rewrite unpackControlMessageWithToken_long by slice_bounds. discriminate.
Qed.

Lemma slice_from_len (b rest : slice) (k : nat) :
  slice_from b k = Done rest -> (len rest + k = len b)%nat.
Proof.
  unfold slice_from. destruct (decide (k <= len b)%nat) as [Hk|]; [|discriminate].
  intros [= <-]. unfold len in *. cbn [elems]. rewrite length_drop. lia.
Qed.

(** Whenever [unpackInt] returns, with or without error, the rest is
    shorter than the buffer: at least one byte has been consumed. *)
Lemma unpackInt_always_advances (b rest : slice) (v : Z) (err : option error) :
  unpackInt b = Done (v, rest, err) -> (len rest < len b)%nat.
Proof.
  destruct b as [m sp]. intros Hrun.
  destruct (decide (4 <= cap (Slice m sp))%nat) as [Hcap|Hcap].
  - unfold cap in Hcap. cbn [elems spare] in Hcap.
    destruct (m ++ sp) as [|x0 [|x1 [|x2 [|x3 r]]]] eqn:Hback;
      cbn [length] in Hcap; try lia.
    rewrite (unpackInt_cases _ _ _ _ _ _ _ Hback) in Hrun.
    repeat (destruct (negb _); [
      destruct (slice_from _ _) as [rest'| |] eqn:Hs; [|discriminate..];
      injection Hrun as _ <- _; apply slice_from_len in Hs; lia |]).
    discriminate.
  - rewrite unpackInt_small_capacity in Hrun by lia. discriminate.
Qed.

(** C9: on the one-byte buffer [0x05] with capacity 4 [unpackInt]
    reports the length error and nevertheless returns a rest from which
    the byte has been removed: the failed decode has advanced. *)
Theorem unpackInt_error_advances :
  unpackInt (Slice (bytes_of [5]) (bytes_of [0; 0; 0])) =
    Done (5, Slice [] (bytes_of [0; 0; 0]), Some ErrUnpackLength) /\
  Slice [] (bytes_of [0; 0; 0]) <> Slice (bytes_of [5]) (bytes_of [0; 0; 0]).
Proof. split; [vm_compute; reflexivity | discriminate]. Qed.

(** ** The VarInt encoder against [unpackInt] *)

Example pack_sizes :
  map (fun v => length (VarInt.Pack [] v))
      [0; 63; 64; 2 ^ 20 - 1; 2 ^ 20; 2 ^ 27 - 1; 2 ^ 27; -1; -64; -65] =
  [1; 1; 2; 3; 4; 4; 5; 1; 1; 2]%nat.
Proof. vm_compute. reflexivity. Qed.

Example pack_604508192 :
  VarInt.Pack [] 604508192 = bytes_of [160; 192; 192; 192; 4].
Proof. vm_compute. reflexivity. Qed.


Lemma continues_arith (b : byte) : continues b = (128 <=? u8 b).
Proof. destruct b; reflexivity. Qed.

Lemma sign_flag_arith (b : byte) : sign_flag b = (64 <=? u8 b mod 128).
Proof. destruct b; reflexivity. Qed.

(** The three fields of a first byte built as continuation + sign + chunk. *)
Lemma first_byte_fields (more sign : bool) (x : Z) :
  0 <= x < 64 ->
  let b := to_byte ((if more then 128 else 0) + (if sign then 64 else 0) + x) in
  continues b = more /\ sign_flag b = sign /\ u8 b mod 64 = x.
Proof.
  intros Hx b. subst b.
  rewrite continues_arith, sign_flag_arith, u8_to_byte.
  destruct more, sign; cbv iota; rewrite (Z.mod_small _ 256) by lia; repeat split;
    try (apply Z.leb_le; divmod_lia); try (apply Z.leb_gt; divmod_lia); divmod_lia.
Qed.

Lemma next_byte_fields (more : bool) (x : Z) :
  0 <= x < 128 ->
  let b := to_byte ((if more then 128 else 0) + x) in
  continues b = more /\ u8 b mod 128 = x.
Proof.
  intros Hx b. subst b.
  rewrite continues_arith, u8_to_byte.
  destruct more; cbv iota; rewrite (Z.mod_small _ 256) by lia; repeat split;
    try (apply Z.leb_le; divmod_lia); try (apply Z.leb_gt; divmod_lia); divmod_lia.
Qed.

Lemma chunks_spec (n k : nat) (m : Z) :
  (k <= n)%nat -> 0 < m < 128 ^ Z.of_nat k ->
  well_formed (VarInt.chunks n m) = true /\
  (length (VarInt.chunks n m) <= k)%nat /\
  chunks7 (VarInt.chunks n m) = m.
Proof.
  revert k m. induction n as [|n IH]; intros k m Hk Hm.
  - replace k with 0%nat in Hm by lia. cbn in Hm. lia.
  - destruct k as [|k]; [cbn in Hm; lia|].
    cbn [VarInt.chunks].
    replace (128 ^ Z.of_nat (S k)) with (128 * 128 ^ Z.of_nat k) in Hm
      by (rewrite Nat2Z.inj_succ, Z.pow_succ_r; lia).
    assert (Hx : 0 <= m mod 128 < 128) by (apply Z.mod_pos_bound; lia).
    destruct (Z.eqb_spec (m / 128) 0) as [Hz|Hnz].
    + destruct (next_byte_fields false (m mod 128) Hx) as [Hc Hv].
      cbn [well_formed length chunks7]. change (0 + m mod 128) with (m mod 128) in *.
      rewrite Hc, Hv. split; [reflexivity|]. split; [lia|]. divmod_lia.
    + destruct (next_byte_fields true (m mod 128) Hx) as [Hc Hv].
      assert (Hrest : 0 < m / 128 < 128 ^ Z.of_nat k).
      { split; [|apply Z.div_lt_upper_bound; lia]. divmod_lia. }
      destruct (IH k _ ltac:(lia) Hrest) as (Hwf & Hlen & Hval).
      cbn [length chunks7]. rewrite Hv, Hval.
      split; [|split; [lia|divmod_lia]].
      destruct (VarInt.chunks n (m / 128)) eqn:E; [discriminate Hwf|].
      cbn [well_formed]. cbn [well_formed] in Hwf. rewrite Hc. exact Hwf.
Qed.

(** The encoding of a value of at most [6 + 7 * k] magnitude bits is
    well formed, has at most [k + 1] bytes and spells the value. *)
Lemma encode_spec (k : nat) (v : Z) :
  (k <= 4)%nat -> - (64 * 128 ^ Z.of_nat k) <= v < 64 * 128 ^ Z.of_nat k ->
  well_formed (VarInt.encode v) = true /\
  (length (VarInt.encode v) <= S k)%nat /\
  encoded_value (VarInt.encode v) = v.
Proof.
  intros Hk Hv. unfold VarInt.encode, VarInt.fold_sign.
  assert (Hfold : exists sign m,
    (if v <? 0 then (true, Z.lnot v) else (false, v)) = (sign, m) /\
    0 <= m < 64 * 128 ^ Z.of_nat k /\ (if sign then Z.lnot m else m) = v).
  { destruct (Z.ltb_spec v 0).
    - exists true, (Z.lnot v). rewrite Z.lnot_involutive. unfold Z.lnot.
      repeat split; lia.
    - exists false, v. repeat split; lia. }
  destruct Hfold as (sign & m & -> & Hm & Hsign).
  assert (Hx : 0 <= m mod 64 < 64) by (apply Z.mod_pos_bound; lia).
  destruct (Z.eqb_spec (m / 64) 0) as [Hz|Hnz].
  - destruct (first_byte_fields false sign (m mod 64) Hx) as (Hc & Hs & Hval).
    cbn [well_formed length encoded_value magnitude chunks7].
    change (0 + (if sign then 64 else 0)) with (if sign then 64 else 0) in *.
    rewrite Hc, Hs, Hval. split; [reflexivity|]. split; [lia|].
    replace (m mod 64 + 64 * 0) with m by divmod_lia. exact Hsign.
  - destruct (first_byte_fields true sign (m mod 64) Hx) as (Hc & Hs & Hval).
    assert (Hrest : 0 < m / 64 < 128 ^ Z.of_nat k).
    { split; [divmod_lia|apply Z.div_lt_upper_bound; lia]. }
    destruct (chunks_spec 4 k (m / 64) Hk Hrest) as (Hwf & Hlen & Hchunks).
    cbn [length encoded_value magnitude]. rewrite Hs, Hval, Hchunks.
    split; [|split; [lia|]].
    + destruct (VarInt.chunks 4 (m / 64)) eqn:E; [discriminate Hwf|].
      cbn [well_formed]. cbn [well_formed] in Hwf. rewrite Hc. exact Hwf.
    + replace (m mod 64 + 64 * (m / 64)) with m by divmod_lia. exact Hsign.
Qed.

(** On a buffer of at least four bytes that starts with the encoding of
    a value of at most 27 magnitude bits, [unpackInt] returns the value
    and the bytes after the encoding. *)
Lemma unpackInt_encode (v : Z) (tail sp : list byte) :
  - 2 ^ 27 <= v < 2 ^ 27 ->
  (4 <= length (VarInt.encode v ++ tail))%nat ->
  unpackInt (Slice (VarInt.encode v ++ tail) sp) = Done (v, Slice tail sp, None).
Proof.
  intros Hv Hlen.
  destruct (encode_spec 3 v ltac:(lia) Hv) as (Hwf & Hle & Hval).
  rewrite unpackInt_prefix by assumption. rewrite Hval. reflexivity.
Qed.

(** C4: the round trip through [VarInt.Pack] and [unpackInt] fails at
    the boundary value 2^27, whose five-byte encoding makes [unpackInt]
    fault whatever the capacity of the buffer, and at 0, whose one-byte
    encoding is never decoded without the length error or a fault. *)
Theorem unpackInt_pack_round_trip_fails (sp : list byte) :
  unpackInt (Slice (VarInt.Pack [] (2 ^ 27)) sp) = Panic (IndexOutOfRange 4 4) /\
  (forall rest : slice,
     unpackInt (Slice (VarInt.Pack [] 0) sp) <> Done (0, rest, None)).
Proof.
  split.
  - change (VarInt.Pack [] (2 ^ 27)) with (bytes_of [128; 128; 128; 128; 1]).
    apply unpackInt_five_bytes_fault; reflexivity.
  - intros rest. change (VarInt.Pack [] 0) with (bytes_of [0]).
    destruct sp as [|s1 [|s2 [|s3 sp]]];
      try (rewrite unpackInt_small_capacity by (unfold cap; cbn; lia); discriminate).
    rewrite (unpackInt_cases (bytes_of [0]) (s1 :: s2 :: s3 :: sp)
               (to_byte 0) s1 s2 s3 sp eq_refl).
    cbn. discriminate.
Qed.

(** ** The Huffman codec *)

Example huffman_sample :
  match Huffman.Init [] [5; 1; 1; 2]%nat with
  | Some h =>
      Huffman.Decompress h (Huffman.Compress h (bytes_of [1; 2; 3; 0; 255])) =
        inr (bytes_of [1; 2; 3; 0; 255]) /\
      Huffman.Decompress h (bytes_of [0]) = inl Huffman.TruncatedStream /\
      length (Huffman.Compress h []) = 1%nat
  | None => False
  end.
Proof. vm_compute. repeat split. Qed.

Module HuffmanFacts.
Import Huffman HuffmanTree.


Lemma bits_of_byte_of_bits (b7 b6 b5 b4 b3 b2 b1 b0 : bool) :
  bits_of_byte (byte_of_bits [b7; b6; b5; b4; b3; b2; b1; b0]) =
  [b7; b6; b5; b4; b3; b2; b1; b0].
Proof. destruct b7, b6, b5, b4, b3, b2, b1, b0; reflexivity. Qed.

(** Reading back the packed bits gives the bits followed by padding. *)
Lemma unpack_pack_bits (bits : list bool) :
  exists padding : list bool,
    concat (map bits_of_byte (pack_bits bits)) = bits ++ padding.
Proof.
  remember (length bits) as n eqn:Hn.
  assert (Hle : (length bits <= n)%nat) by lia. clear Hn.
  revert bits Hle. induction n as [n IH] using lt_wf_ind. intros bits Hle.
  destruct bits as [|b7 [|b6 [|b5 [|b4 [|b3 [|b2 [|b1 [|b0 rest]]]]]]]];
    try (cbn [pack_bits app replicate take map concat];
         rewrite bits_of_byte_of_bits; cbn [app]; eexists; reflexivity).
  - exists []. reflexivity.
  - cbn [length] in Hle.
    destruct (IH (length rest) ltac:(lia) rest ltac:(lia)) as [padding Hpad].
    exists padding. cbn [pack_bits map concat].
    rewrite bits_of_byte_of_bits, Hpad. reflexivity.
Qed.

Lemma assign_codes_follow (t : tree) (pre : list bool) (s : nat) (p : list bool) :
  (s, p) ∈ assign_codes t pre ->
  exists q, p = pre ++ q /\ follow t q = Some s.
Proof.
  revert pre. induction t as [s'|zero IHz one IHo]; intros pre Hin.
  - cbn in Hin. apply list_elem_of_singleton in Hin. injection Hin as -> ->.
    exists []. rewrite app_nil_r. split; reflexivity.
  - cbn [assign_codes] in Hin. apply elem_of_app in Hin as [Hin|Hin].
    + apply IHz in Hin as (q & -> & Hq). exists (false :: q).
      rewrite <- app_assoc. split; [reflexivity|exact Hq].
    + apply IHo in Hin as (q & -> & Hq). exists (true :: q).
      rewrite <- app_assoc. split; [reflexivity|exact Hq].
Qed.

Lemma assign_codes_symbols (t : tree) (pre : list bool) :
  (assign_codes t pre).*1 = leaves t.
Proof.
  revert pre. induction t as [s|zero IHz one IHo]; intros pre; cbn.
  - reflexivity.
  - rewrite fmap_app, IHz, IHo. reflexivity.
Qed.

Lemma lookup_code_elem (cs : list (nat * list bool)) (s : nat) :
  s ∈ cs.*1 -> (s, lookup_code cs s) ∈ cs.
Proof.
  induction cs as [|[s' p] cs IH]; cbn; intros Hin.
  - apply elem_of_nil in Hin. contradiction.
  - destruct (decide (s' = s)) as [->|Hne].
    + apply list_elem_of_here.
    + apply list_elem_of_further, IH.
      apply elem_of_cons in Hin as [Heq|Hin]; [congruence|exact Hin].
Qed.

(** The code of a symbol of the tree leads from the root to its leaf. *)
Lemma code_follows (t : tree) (s : nat) :
  s ∈ leaves t -> follow t (lookup_code (assign_codes t []) s) = Some s.
Proof.
  intros Hin. rewrite <- (assign_codes_symbols t []) in Hin.
  apply lookup_code_elem, assign_codes_follow in Hin as (q & Hq & Hf).
  cbn in Hq. rewrite Hq. exact Hf.
Qed.

Lemma insert_sorted_perm (x : construct_node) (l : list construct_node) :
  insert_sorted x l ≡ₚ x :: l.
Proof.
  induction l as [|y l IH]; cbn; [reflexivity|].
  destruct (frequency y <=? frequency x)%nat; [reflexivity|].
  rewrite IH. apply Permutation_swap.
Qed.

Lemma sort_descending_perm (l : list construct_node) : sort_descending l ≡ₚ l.
Proof.
  induction l as [|x l IH]; cbn; [reflexivity|].
  rewrite insert_sorted_perm, IH. reflexivity.
Qed.

(** One round replaces the two last nodes of the sorted list by their
    combination. *)
Lemma merge_lowest_cases (nodes : list construct_node) :
  (2 <= length nodes)%nat ->
  exists a b front,
    nodes ≡ₚ front ++ [b; a] /\
    merge_lowest nodes = front ++ [combine a b].
Proof.
  intros Hlen. unfold merge_lowest.
  pose proof (sort_descending_perm nodes) as Hperm.
  pose proof (Permutation_length Hperm) as Hl.
  rewrite <- (length_reverse (sort_descending nodes)) in Hl.
  pose proof (reverse_involutive (sort_descending nodes)) as Hrev.
  destruct (reverse (sort_descending nodes)) as [|a [|b others]];
    cbn [length] in Hl; try lia.
  exists a, b, (reverse others). split; [|reflexivity].
  rewrite <- Hperm, <- Hrev, !reverse_cons, <- app_assoc. reflexivity.
Qed.

Lemma forest_leaves_app (l1 l2 : list construct_node) :
  forest_leaves (l1 ++ l2) = forest_leaves l1 ++ forest_leaves l2.
Proof. unfold forest_leaves. apply bind_app. Qed.

Lemma merge_lowest_leaves (nodes : list construct_node) (s : nat) :
  (2 <= length nodes)%nat ->
  s ∈ forest_leaves nodes -> s ∈ forest_leaves (merge_lowest nodes).
Proof.
  intros Hlen Hin.
  destruct (merge_lowest_cases nodes Hlen) as (a & b & front & Hperm & ->).
  assert (Hin' : s ∈ forest_leaves (front ++ [b; a])).
  { unfold forest_leaves in *. rewrite <- Hperm. exact Hin. }
  rewrite forest_leaves_app in Hin' |- *. unfold forest_leaves in Hin' |- *.
  cbn in Hin' |- *. rewrite app_nil_r in Hin' |- *.
  rewrite !elem_of_app in Hin'. rewrite !elem_of_app. tauto.
Qed.

Lemma construct_total (fuel : nat) (nodes : list construct_node) :
  nodes <> [] -> (length nodes <= fuel)%nat ->
  exists t, construct fuel nodes = Some t.
Proof.
  revert nodes. induction fuel as [|fuel IH]; intros nodes Hne Hlen.
  - destruct nodes; [contradiction|cbn in Hlen; lia].
  - destruct nodes as [|n1 [|n2 rest]]; [contradiction|eexists; reflexivity|].
    cbn [construct].
    destruct (merge_lowest_cases (n1 :: n2 :: rest) ltac:(cbn; lia))
      as (a & b & front & Hperm & Hm).
    apply Permutation_length in Hperm. rewrite length_app in Hperm.
    cbn [length] in Hperm, Hlen.
    apply IH; rewrite Hm.
    + destruct front; discriminate.
    + rewrite length_app. cbn [length]. lia.
Qed.

Lemma construct_leaves (fuel : nat) (nodes : list construct_node) (t : tree) (s : nat) :
  construct fuel nodes = Some t -> s ∈ forest_leaves nodes -> s ∈ leaves t.
Proof.
  revert nodes. induction fuel as [|fuel IH]; intros nodes Hc Hin; [discriminate|].
  destruct nodes as [|n1 [|n2 rest]]; [discriminate| |].
  - injection Hc as <-. unfold forest_leaves in Hin. cbn in Hin.
    rewrite app_nil_r in Hin. exact Hin.
  - cbn [construct] in Hc. apply (IH _ Hc).
    apply merge_lowest_leaves; [cbn; lia|exact Hin].
Qed.

Lemma construct_internal (fuel : nat) (nodes : list construct_node) (t : tree) :
  construct fuel nodes = Some t ->
  (2 <= length nodes)%nat \/ (exists front a b, nodes = front ++ [combine a b]) ->
  exists zero one, t = Node zero one.
Proof.
  revert nodes. induction fuel as [|fuel IH]; intros nodes Hc Hshape; [discriminate|].
  destruct nodes as [|n1 [|n2 rest]]; [discriminate| |].
  - injection Hc as <-. destruct Hshape as [Hlen|(front & a & b & Heq)].
    + cbn in Hlen. lia.
    + destruct front as [|? [|? ?]]; try discriminate Heq.
      injection Heq as ->. cbn. eauto.
  - cbn [construct] in Hc. apply (IH _ Hc). right.
    destruct (merge_lowest_cases (n1 :: n2 :: rest) ltac:(cbn; lia))
      as (a & b & front & _ & Hm).
    eauto.
Qed.

Lemma forest_leaves_initial (table : list nat) :
  forest_leaves (initial_nodes table) = seq 0 max_symbols.
Proof.
  unfold initial_nodes, forest_leaves.
  induction (seq 0 max_symbols) as [|s l IH]; [reflexivity|].
  cbn [map]. rewrite bind_cons, IH. reflexivity.
Qed.

(** [Init] always yields an instance: its tree is an internal node, has
    a leaf for every symbol, and its codes are the paths of the tree. *)
Lemma Init_ready (default_table table : list nat) :
  exists zero one,
    Init default_table table =
      Some (Ready (Node zero one) (assign_codes (Node zero one) [])) /\
    forall s, (s < max_symbols)%nat -> s ∈ leaves (Node zero one).
Proof.
  unfold Init.
  set (tbl := match table with [] => default_table | _ => table end).
  assert (Hlen : length (initial_nodes tbl) = max_symbols).
  { unfold initial_nodes. rewrite length_map, length_seq. reflexivity. }
  destruct (construct_total (length (initial_nodes tbl)) (initial_nodes tbl))
    as [t Ht]; [|lia|].
  { intros Hnil. rewrite Hnil in Hlen. discriminate Hlen. }
  destruct (construct_internal _ _ _ Ht) as (zero & one & ->).
  { left. rewrite Hlen. unfold max_symbols. lia. }
  exists zero, one. rewrite Ht. split; [reflexivity|].
  intros s Hs. apply (construct_leaves _ _ _ _ Ht).
  rewrite forest_leaves_initial. apply elem_of_seq. lia.
Qed.

(** Walking along the path of a leaf from an internal node either stops
    at the sentinel or emits the byte and returns to the root. *)
Lemma walk_code (top : tree) (p : list bool) (s : nat) :
  forall (zero one : tree) (rest : list bool) (emitted : list byte),
    follow (Node zero one) p = Some s ->
    walk top (Node zero one) (p ++ rest) emitted =
    if decide (s = eof_symbol) then inr (reverse emitted)
    else walk top top rest (to_byte (Z.of_nat s) :: emitted).
Proof.
  induction p as [|bit p IH]; intros zero one rest emitted Hf; [discriminate|].
  cbn [follow] in Hf. cbn [app walk].
  destruct (if bit then one else zero) as [s'|z' o'].
  - destruct p; [|discriminate]. injection Hf as ->. reflexivity.
  - apply IH, Hf.
Qed.

Lemma byte_symbol (b : byte) :
  (Z.to_nat (u8 b) < max_symbols)%nat /\
  Z.to_nat (u8 b) <> eof_symbol /\
  to_byte (Z.of_nat (Z.to_nat (u8 b))) = b.
Proof.
  pose proof (u8_range b) as Hb. unfold max_symbols, eof_symbol.
  rewrite Z2Nat.id by lia. rewrite to_byte_u8. repeat split; lia.
Qed.

(** The walk over the codes of the input followed by the code of the
    sentinel returns the input. *)
Lemma walk_stream (zero one : tree) (input : list byte) :
  let top := Node zero one in
  let cs := assign_codes top [] in
  (forall s, (s < max_symbols)%nat -> s ∈ leaves top) ->
  forall (padding : list bool) (emitted : list byte),
    walk top top
      ((concat (map (fun b => lookup_code cs (Z.to_nat (u8 b))) input) ++
        lookup_code cs eof_symbol) ++ padding) emitted =
    inr (reverse emitted ++ input).
Proof.
  intros top cs Hall padding.
  induction input as [|b input IH]; intros emitted.
  - cbn [map concat app]. subst top.
    rewrite (walk_code _ _ eof_symbol).
    + destruct (decide (eof_symbol = eof_symbol)); [|contradiction].
      rewrite app_nil_r. reflexivity.
    + apply code_follows, Hall. unfold max_symbols, eof_symbol. lia.
  - destruct (byte_symbol b) as (Hlt & Hne & Hb).
    cbn [map concat]. rewrite <- !app_assoc. subst top.
    rewrite (walk_code _ _ (Z.to_nat (u8 b))).
    + destruct (decide (Z.to_nat (u8 b) = eof_symbol)); [contradiction|].
      rewrite Hb, app_assoc, IH, reverse_cons, <- app_assoc. reflexivity.
    + apply code_follows, Hall, Hlt.
Qed.

Lemma pack_bits_nonempty (bits : list bool) : bits <> [] -> pack_bits bits <> [].
Proof.
  intros Hne.
  destruct bits as [|b7 [|b6 [|b5 [|b4 [|b3 [|b2 [|b1 [|b0 rest]]]]]]]];
    [contradiction|discriminate..].
Qed.

End HuffmanFacts.

(** C5: for every frequency table and every byte sequence x,
    decompressing the compression of x gives x again, and the
    compression of x is never empty. *)
Theorem huffman_round_trip (default_table table : list nat) (x : list byte) :
  exists h : Huffman.huffman,
    Huffman.Init default_table table = Some h /\
    Huffman.Decompress h (Huffman.Compress h x) = inr x /\
    Huffman.Compress h x <> [].
Proof.
  destruct (HuffmanFacts.Init_ready default_table table) as (zero & one & Hinit & Hall).
  eexists. split; [exact Hinit|].
  unfold Huffman.Decompress, Huffman.Compress. cbn [Huffman.root Huffman.codes].
  split.
  - destruct (HuffmanFacts.unpack_pack_bits
      (concat (map (fun b => Huffman.lookup_code
                       (Huffman.assign_codes (Huffman.Node zero one) [])
                       (Z.to_nat (u8 b))) x) ++
       Huffman.lookup_code (Huffman.assign_codes (Huffman.Node zero one) [])
         Huffman.eof_symbol)) as [padding ->].
    apply (HuffmanFacts.walk_stream zero one x Hall padding []).
  - apply HuffmanFacts.pack_bits_nonempty. intros Hnil.
    apply app_eq_nil in Hnil as [_ Hnil].
    pose proof (HuffmanFacts.code_follows (Huffman.Node zero one) Huffman.eof_symbol) as Hf.
    rewrite Hnil in Hf. cbn in Hf.
    assert (Hin : Huffman.eof_symbol ∈ HuffmanTree.leaves (Huffman.Node zero one)).
    { apply Hall. unfold Huffman.max_symbols, Huffman.eof_symbol. lia. }
    specialize (Hf Hin). discriminate Hf.
Qed.

(** ** The permutation generator *)

Example permutate_three :
  Permute.permutate [1; 2; 3] =
  Done ([1; 2; 3], [[1; 2; 3]; [1; 3; 2]; [2; 1; 3]; [2; 3; 1]; [3; 2; 1]; [3; 1; 2]]).
Proof. vm_compute. reflexivity. Qed.

Module PermuteFacts.
Import Permute.
Section PermuteFacts.
Context {A : Type}.
Implicit Types (arr p : list A) (res : list (list A)).

Lemma swap_in_range arr (i k : nat) :
  (i < length arr)%nat -> (k < length arr)%nat ->
  swap arr i k = Done (exchanged arr i k).
Proof.
  intros Hi Hk. unfold swap, exchanged, get, set.
  destruct (lookup_lt_is_Some_2 arr k Hk) as [x ->].
  destruct (lookup_lt_is_Some_2 arr i Hi) as [y ->].
  cbn [bind]. destruct (decide (i < length arr)%nat); [|lia].
  cbn [bind]. rewrite length_insert.
  destruct (decide (k < length arr)%nat); [|lia]. reflexivity.
Qed.

Lemma length_exchanged arr (i k : nat) : length (exchanged arr i k) = length arr.
Proof.
  unfold exchanged. destruct (arr !! k), (arr !! i); rewrite ?length_insert; reflexivity.
Qed.

Lemma exchanged_lookup arr (i k j : nat) :
  (i < length arr)%nat -> (k < length arr)%nat ->
  exchanged arr i k !! j =
  if decide (j = k) then arr !! i else if decide (j = i) then arr !! k else arr !! j.
Proof.
  intros Hi Hk. unfold exchanged.
  destruct (lookup_lt_is_Some_2 arr k Hk) as [x Ex].
  destruct (lookup_lt_is_Some_2 arr i Hi) as [y Ey].
  rewrite Ex, Ey.
  destruct (decide (j = k)) as [->|Hjk].
  - rewrite list_lookup_insert_eq by (rewrite length_insert; lia). reflexivity.
  - rewrite list_lookup_insert_ne by congruence.
    destruct (decide (j = i)) as [->|Hji].
    + rewrite list_lookup_insert_eq by lia. reflexivity.
    + rewrite list_lookup_insert_ne by congruence. reflexivity.
Qed.

(** Exchanging twice, with the indices in either order, restores the
    slice. *)
Lemma exchanged_back arr (i k : nat) : exchanged (exchanged arr i k) k i = arr.
Proof.
  destruct (decide (i < length arr)%nat) as [Hi|Hi];
    [destruct (decide (k < length arr)%nat) as [Hk|Hk]|].
  - apply list_eq. intros j.
    rewrite exchanged_lookup by (rewrite length_exchanged; lia).
    rewrite !exchanged_lookup by lia.
    repeat case_decide; subst; try reflexivity; try congruence.
  - unfold exchanged at 2. rewrite (lookup_ge_None_2 arr k) by lia.
    unfold exchanged. rewrite (lookup_ge_None_2 arr k) by lia.
    destruct (arr !! i); reflexivity.
  - unfold exchanged at 2. rewrite (lookup_ge_None_2 arr i) by lia.
    destruct (arr !! k); unfold exchanged; rewrite (lookup_ge_None_2 arr i) by lia;
      reflexivity.
Qed.

Lemma insert_head_perm (l : list A) (i : nat) (a y : A) :
  l !! i = Some y -> y :: <[i := a]> l ≡ₚ a :: l.
Proof.
  revert i. induction l as [|b l IH]; intros [|i] Hy; try discriminate.
  - injection Hy as ->. apply Permutation_swap.
  - cbn in Hy. cbn [insert list_insert]. rewrite Permutation_swap.
    rewrite (IH i Hy). apply Permutation_swap.
Qed.

Lemma exchanged_perm arr (i k : nat) : exchanged arr i k ≡ₚ arr.
Proof.
  unfold exchanged.
  destruct (arr !! k) as [x|] eqn:Ek; [|reflexivity].
  destruct (arr !! i) as [y|] eqn:Ei; [|reflexivity].
  revert i k Ek Ei. induction arr as [|a l IH]; intros [|i] [|k] Ek Ei;
    try discriminate; cbn in Ek, Ei; cbn [insert list_insert].
  - injection Ek as ->. injection Ei as ->. reflexivity.
  - injection Ei as ->. apply insert_head_perm, Ek.
  - injection Ek as ->. apply insert_head_perm, Ei.
  - f_equiv. apply IH; assumption.
Qed.

Lemma take_exchanged arr (i k : nat) :
  (k <= i)%nat -> take k (exchanged arr i k) = take k arr.
Proof.
  intros Hki. unfold exchanged.
  destruct (arr !! k), (arr !! i); try reflexivity.
  rewrite !take_insert_ge by lia. reflexivity.
Qed.

(** The [for] of [calPermutation] from index [k + j] on, when the
    recursive call behaves as [arrangements] says. *)
Lemma cal_loop (recurse : list A -> list (list A) -> nat -> outcome (list A * list (list A)))
    (d' : nat) arr (k : nat) :
  (forall arr' res', length arr' = length arr ->
     recurse arr' res' (S k) = Done (arr', res' ++ arrangements d' arr' (S k))) ->
  forall (r j n : nat) res,
    (k + j + r = length arr)%nat -> (r < n)%nat ->
    for_loop n (calPermutation_body recurse k) ((k + j)%nat, arr, res) =
    Done (length arr, arr,
          res ++ concat (map (fun i => arrangements d' (exchanged arr i k) (S k))
                             (seq (k + j) r))).
Proof.
  intros Hrec. induction r as [|r IH]; intros j n res Hlen Hn;
    (destruct n as [|n]; [lia|]); cbn [for_loop calPermutation_body].
  - destruct (decide (k + j < length arr)%nat); [lia|]. cbn [bind seq map concat].
    rewrite app_nil_r. repeat f_equal. lia.
  - destruct (decide (k + j < length arr)%nat); [|lia].
    rewrite swap_in_range by lia. cbn [bind].
    rewrite Hrec by apply length_exchanged. cbn [bind].
    rewrite swap_in_range by (rewrite length_exchanged; lia). cbn [bind].
    rewrite exchanged_back.
    replace (S (k + j)) with (k + S j)%nat by lia.
    rewrite IH by lia. cbn [seq map concat].
    replace (S (k + j)) with (k + S j)%nat by lia.
    rewrite !app_assoc. reflexivity.
Qed.

(** [calPermutation] leaves the slice as it found it and appends the
    arrangements to the result list. *)
Lemma calPermutation_arrangements (fuel d : nat) arr res (k : nat) :
  length arr = (k + d)%nat -> (d < fuel)%nat ->
  calPermutation fuel arr res k = Done (arr, res ++ arrangements d arr k).
Proof.
  revert d arr res k. induction fuel as [|fuel IH]; intros d arr res k Hlen Hd; [lia|].
  cbn [calPermutation].
  destruct d as [|d'].
  - cbn [for_loop calPermutation_body].
    destruct (decide (k < length arr)%nat); [lia|]. cbn [bind].
    destruct (Z.eqb_spec (Z.of_nat k) (Z.of_nat (length arr) - 1)); [lia|].
    cbn [arrangements]. rewrite app_nil_r. reflexivity.
  - pose proof (cal_loop (calPermutation fuel) d' arr k) as Hloop.
    replace k with (k + 0)%nat at 2 by lia.
    rewrite (Hloop ltac:(intros; apply IH; lia) (S d') 0%nat) by lia.
    cbn [bind]. replace (k + 0)%nat with k by lia. cbn [arrangements].
    destruct (Z.eqb_spec (Z.of_nat k) (Z.of_nat (length arr) - 1)) as [He|Hne].
    + destruct d' as [|d']; [|lia]. rewrite app_assoc. reflexivity.
    + destruct d' as [|d']; [lia|]. rewrite app_nil_r. reflexivity.
Qed.

Lemma elem_of_arrangements_S (d' : nat) arr (k : nat) p :
  p ∈ arrangements (S d') arr k <->
  (exists i, (k <= i < k + S d')%nat /\
             p ∈ arrangements d' (exchanged arr i k) (S k)) \/
  (d' = 0%nat /\ p = arr).
Proof.
  cbn [arrangements]. rewrite elem_of_app, !list_elem_of_In, in_concat.
  split.
  - intros [(ps & Hps & Hp)|Hp].
    + apply in_map_iff in Hps as (i & <- & Hi).
      apply in_seq in Hi. left. exists i. split; [lia|].
      apply list_elem_of_In, Hp.
    + right. destruct d'; [|destruct Hp].
      destruct Hp as [<-|[]]. auto.
  - intros [(i & Hi & Hp)|[-> ->]].
    + left. eexists. split; [|apply list_elem_of_In, Hp].
      apply in_map_iff. exists i. split; [reflexivity|].
      apply in_seq. lia.
    + right. left. reflexivity.
Qed.

(** Every arrangement is a permutation of the slice that keeps its
    first [k] elements. *)
Lemma arrangements_sound (d : nat) arr (k : nat) p :
  length arr = (k + d)%nat -> p ∈ arrangements d arr k ->
  p ≡ₚ arr /\ take k p = take k arr.
Proof.
  revert arr k. induction d as [|d IH]; intros arr k Hlen Hp.
  - apply elem_of_nil in Hp. contradiction.
  - apply elem_of_arrangements_S in Hp as [(i & Hi & Hp)|[_ ->]]; [|split; reflexivity].
    apply IH in Hp as [Hperm Htake]; [|rewrite length_exchanged; lia].
    split; [rewrite Hperm; apply exchanged_perm|].
    rewrite <- (take_exchanged arr i k) by lia.
    apply (f_equal (take k)) in Htake. rewrite !take_take in Htake.
    replace (k `min` S k)%nat with k in Htake by lia. exact Htake.
Qed.

(** Every permutation of the slice that keeps its first [k] elements is
    among the arrangements, when an element is left to arrange. *)
Lemma arrangements_complete (d : nat) arr (k : nat) p :
  length arr = (k + S d)%nat -> p ≡ₚ arr -> take k p = take k arr ->
  p ∈ arrangements (S d) arr k.
Proof.
  revert arr k. induction d as [|d IH]; intros arr k Hlen Hperm Htake.
  - apply elem_of_arrangements_S. right. split; [reflexivity|].
    pose proof (Permutation_length Hperm) as Hl.
    assert (Hdrop : drop k p ≡ₚ drop k arr).
    { apply (Permutation_app_inv_l (take k arr)).
      rewrite <- Htake at 1. rewrite !take_drop. exact Hperm. }
    rewrite <- (take_drop k p), <- (take_drop k arr), Htake. f_equal.
    destruct (drop k p) as [|x [|? ?]] eqn:Ep; destruct (drop k arr) as [|y [|? ?]] eqn:Ea;
      apply (f_equal length) in Ep, Ea; rewrite length_drop in Ep, Ea;
      cbn [length] in Ep, Ea; try lia.
    apply Permutation_singleton_l in Hdrop. congruence.
  - pose proof (Permutation_length Hperm) as Hl.
    assert (Hdrop : drop k p ≡ₚ drop k arr).
    { apply (Permutation_app_inv_l (take k arr)).
      rewrite <- Htake at 1. rewrite !take_drop. exact Hperm. }
    destruct (lookup_lt_is_Some_2 p k ltac:(lia)) as [x Hx].
    assert (Hin : x ∈ drop k arr).
    { rewrite <- Hdrop. apply (list_elem_of_lookup_2 _ 0). rewrite lookup_drop.
      replace (k + 0)%nat with k by lia. exact Hx. }
    apply list_elem_of_lookup_1 in Hin as [j Hj]. rewrite lookup_drop in Hj.
    pose proof (lookup_lt_Some _ _ _ Hj) as Hjlen.
    apply elem_of_arrangements_S. left. exists (k + j)%nat. split; [lia|].
    apply IH.
    + rewrite length_exchanged. lia.
    + rewrite Hperm. symmetry. apply exchanged_perm.
    + rewrite (take_S_r p k x Hx).
      assert (Hk : exchanged arr (k + j) k !! k = Some x).
      { rewrite exchanged_lookup by lia. rewrite decide_True by reflexivity. exact Hj. }
      rewrite (take_S_r _ k x Hk), take_exchanged by lia. rewrite Htake. reflexivity.
Qed.

Lemma length_concat_const {B : Type} (ls : list (list B)) (n : nat) :
  (forall l, l ∈ ls -> length l = n) -> length (concat ls) = (length ls * n)%nat.
Proof.
  induction ls as [|l ls IH]; intros Hall; [reflexivity|].
  cbn [concat length]. rewrite length_app, IH, (Hall l).
  - lia.
  - apply list_elem_of_here.
  - intros l' Hl'. apply Hall, list_elem_of_further, Hl'.
Qed.

(** There are [d!] arrangements of the [d >= 1] elements from index [k]
    on. *)
Lemma length_arrangements (d : nat) arr (k : nat) :
  length arr = (k + S d)%nat -> length (arrangements (S d) arr k) = fact (S d).
Proof.
  revert arr k. induction d as [|d IH]; intros arr k Hlen.
  - reflexivity.
  - change (arrangements (S (S d)) arr k) with
      (concat (map (fun i => arrangements (S d) (exchanged arr i k) (S k))
                   (seq k (S (S d)))) ++ []).
    rewrite app_nil_r, (length_concat_const _ (fact (S d))).
    + rewrite length_map, length_seq. reflexivity.
    + intros l Hl. apply list_elem_of_In, in_map_iff in Hl as (i & <- & Hi).
      apply in_seq in Hi. apply IH. rewrite length_exchanged. lia.
Qed.

Lemma NoDup_concat_map {B : Type} (f : nat -> list B) (l : list nat) :
  NoDup l ->
  (forall i, i ∈ l -> NoDup (f i)) ->
  (forall i j x, i ∈ l -> j ∈ l -> x ∈ f i -> x ∈ f j -> i = j) ->
  NoDup (concat (map f l)).
Proof.
  induction l as [|i l IH]; intros Hnd Hf Hdis; [constructor|].
  apply NoDup_cons in Hnd as [Hi Hnd]. cbn [map concat].
  apply NoDup_app. split; [apply Hf, list_elem_of_here|]. split.
  - intros x Hx Hx'. apply list_elem_of_In, in_concat in Hx' as (ps & Hps & Hxp).
    apply in_map_iff in Hps as (j & <- & Hj).
    apply list_elem_of_In in Hxp, Hj.
    assert (i = j) as -> by
      (apply (Hdis i j x); [apply list_elem_of_here|apply list_elem_of_further, Hj|..];
       assumption).
    contradiction.
  - apply IH; [exact Hnd| |].
    + intros j Hj. apply Hf, list_elem_of_further, Hj.
    + intros j j' x Hj Hj'. apply Hdis; apply list_elem_of_further; assumption.
Qed.

(** The arrangements of a slice without repeated elements are pairwise
    different. *)
Lemma NoDup_arrangements (d : nat) arr (k : nat) :
  length arr = (k + d)%nat -> NoDup arr -> NoDup (arrangements d arr k).
Proof.
  revert arr k. induction d as [|d IH]; intros arr k Hlen Hnd; [constructor|].
  cbn [arrangements]. destruct d as [|d].
  - cbn. apply NoDup_singleton.
  - rewrite app_nil_r. apply NoDup_concat_map.
    + apply NoDup_seq.
    + intros i Hi. apply elem_of_seq in Hi. apply IH.
      * rewrite length_exchanged. lia.
      * rewrite exchanged_perm. exact Hnd.
    + intros i j p Hi Hj Hpi Hpj. apply elem_of_seq in Hi, Hj.
      apply arrangements_sound in Hpi as [_ Hti]; [|rewrite length_exchanged; lia].
      apply arrangements_sound in Hpj as [_ Htj]; [|rewrite length_exchanged; lia].
      assert (Hk : exchanged arr i k !! k = exchanged arr j k !! k).
      { rewrite <- (lookup_take_lt _ (S k) k), <- Hti by lia.
        rewrite <- (lookup_take_lt (exchanged arr j k) (S k) k), <- Htj by lia.
        reflexivity. }
      rewrite !exchanged_lookup in Hk by lia.
      rewrite !decide_True in Hk by reflexivity.
      destruct (lookup_lt_is_Some_2 arr i ltac:(lia)) as [x Hx].
      rewrite Hx in Hk. symmetry in Hk.
      apply (NoDup_lookup arr i j x Hnd Hx Hk).
Qed.

Lemma calPermutation_beyond (fuel : nat) arr res (k : nat) :
  (length arr <= k)%nat ->
  calPermutation (S fuel) arr res k = Done (arr, res).
Proof.
  intros Hk. cbn [calPermutation for_loop calPermutation_body].
  destruct (decide (k < length arr)%nat); [lia|]. cbn [bind].
  destruct (Z.eqb_spec (Z.of_nat k) (Z.of_nat (length arr) - 1)); [lia|reflexivity].
Qed.

(** X13: with both indices inside the slice, [swap] returns the slice
    with the two elements exchanged and all others in place, a
    permutation of the same length; swapping again with the indices in
    the other order restores the slice. *)
Theorem swap_exchanges arr (i k : nat) :
  (i < length arr)%nat -> (k < length arr)%nat ->
  exists arr',
    swap arr i k = Done arr' /\
    length arr' = length arr /\ arr' ≡ₚ arr /\
    arr' !! i = arr !! k /\ arr' !! k = arr !! i /\
    (forall j, j <> i -> j <> k -> arr' !! j = arr !! j) /\
    swap arr' k i = Done arr.
Proof.
  intros Hi Hk. exists (exchanged arr i k).
  split; [apply swap_in_range; assumption|].
  split; [apply length_exchanged|]. split; [apply exchanged_perm|].
  split; [|split; [|split]].
  - rewrite exchanged_lookup by assumption.
    destruct (decide (i = k)) as [->|]; [reflexivity|].
    rewrite decide_True by reflexivity. reflexivity.
  - rewrite exchanged_lookup by assumption. rewrite decide_True by reflexivity.
    reflexivity.
  - intros j Hji Hjk. rewrite exchanged_lookup by assumption.
    rewrite !decide_False by assumption. reflexivity.
  - rewrite swap_in_range by (rewrite length_exchanged; assumption).
    rewrite exchanged_back. reflexivity.
Qed.

(** X14: with an index outside the slice, [swap] raises an index
    fault. *)
Theorem swap_faults arr (i k : nat) :
  (length arr <= i)%nat \/ (length arr <= k)%nat ->
  exists j, swap arr i k = Panic (IndexOutOfRange j (length arr)).
Proof.
  intros Hout. unfold swap, get, set.
  destruct (arr !! k) as [x|] eqn:Ek; [|eexists; reflexivity].
  destruct (arr !! i) as [y|] eqn:Ei; [|eexists; reflexivity].
  apply lookup_lt_Some in Ek. apply lookup_lt_Some in Ei. lia.
Qed.

(** X15: [calPermutation(arr, res, k)] returns with the slice as it
    found it; it only appends to the result list, and every entry it
    appends is a permutation of the slice that keeps the first [k]
    elements. From [k >= len(arr)] on it appends nothing. *)
Theorem calPermutation_restores (fuel : nat) arr res (k : nat) :
  (length arr - k < fuel)%nat ->
  exists ps,
    calPermutation fuel arr res k = Done (arr, res ++ ps) /\
    (forall p, p ∈ ps -> p ≡ₚ arr /\ take k p = take k arr) /\
    ((length arr <= k)%nat -> ps = []).
Proof.
  intros Hfuel. destruct (decide (length arr <= k)%nat) as [Hk|Hk].
  - exists []. destruct fuel as [|fuel]; [lia|].
    rewrite calPermutation_beyond, app_nil_r by assumption.
    split; [reflexivity|]. split; [|reflexivity].
    intros p Hp. apply elem_of_nil in Hp. contradiction.
  - exists (arrangements (length arr - k) arr k).
    split; [apply (calPermutation_arrangements fuel (length arr - k)); lia|].
    split; [|lia].
    intros p. apply arrangements_sound. lia.
Qed.

(** X16: [permutate(a)] leaves [a] as it found it and returns exactly
    the permutations of a non-empty [a], [len(a)!] entries in all; for
    the empty slice it returns no entry at all. *)
Theorem permutate_all (a : list A) :
  exists ps,
    permutate a = Done (a, ps) /\
    (forall p, p ∈ ps <-> a <> [] /\ p ≡ₚ a) /\
    length ps = match a with [] => 0%nat | _ => fact (length a) end.
Proof.
  unfold permutate. exists (arrangements (length a) a 0).
  split; [apply (calPermutation_arrangements _ (length a)); lia|].
  destruct a as [|x a]; [|remember (x :: a) as arr eqn:Harr].
  - split; [|reflexivity]. intros p. cbn. split.
    + intros Hp. apply elem_of_nil in Hp. contradiction.
    + intros [Hne _]. contradiction.
  - assert (Hlen : length arr = S (length a)) by (subst arr; reflexivity).
    rewrite Hlen. split.
    + intros p. split.
      * intros Hp. apply arrangements_sound in Hp as [Hperm _]; [|lia].
        split; [subst arr; discriminate|exact Hperm].
      * intros [_ Hperm]. apply arrangements_complete; [lia|exact Hperm|reflexivity].
    + rewrite length_arrangements by lia. subst arr. reflexivity.
Qed.

(** X17: on a slice without repeated elements the entries returned by
    [permutate] are pairwise different. *)
Theorem permutate_distinct (a : list A) :
  NoDup a -> exists ps, permutate a = Done (a, ps) /\ NoDup ps.
Proof.
  intros Hnd. unfold permutate. exists (arrangements (length a) a 0).
  split; [apply (calPermutation_arrangements _ (length a)); lia|].
  apply NoDup_arrangements; [lia|exact Hnd].
Qed.

End PermuteFacts.

Lemma swap_exchanges_witness :
  (2 < length [10; 20; 30; 40])%nat /\ (0 < length [10; 20; 30; 40])%nat /\
  exists arr',
    swap [10; 20; 30; 40] 2 0 = Done arr' /\
    length arr' = length [10; 20; 30; 40] /\ arr' ≡ₚ [10; 20; 30; 40] /\
    arr' !! 2%nat = [10; 20; 30; 40] !! 0%nat /\
    arr' !! 0%nat = [10; 20; 30; 40] !! 2%nat /\
    (forall j, j <> 2%nat -> j <> 0%nat -> arr' !! j = [10; 20; 30; 40] !! j) /\
    swap arr' 0 2 = Done [10; 20; 30; 40].
Proof.
  split; [cbn; lia|]. split; [cbn; lia|].
  apply (swap_exchanges [10; 20; 30; 40] 2 0); cbn; lia.
Defined.

Lemma swap_faults_witness :
  ((length [10; 20] <= 2)%nat \/ (length [10; 20] <= 0)%nat) /\
  exists j, swap [10; 20] 2 0 = Panic (IndexOutOfRange j (length [10; 20])).
Proof.
  split; [left; cbn; lia|].
  apply (swap_faults [10; 20] 2 0). left. cbn. lia.
Defined.

Lemma calPermutation_restores_witness :
  (length [1; 2; 3] - 1 < 3)%nat /\
  exists ps,
    calPermutation 3 [1; 2; 3] [[7]] 1 = Done ([1; 2; 3], [[7]] ++ ps) /\
    (forall p, p ∈ ps -> p ≡ₚ [1; 2; 3] /\ take 1 p = take 1 [1; 2; 3]) /\
    ((length [1; 2; 3] <= 1)%nat -> ps = []).
Proof.
  split; [cbn; lia|].
  apply (calPermutation_restores 3 [1; 2; 3] [[7]] 1). cbn. lia.
Defined.

Lemma permutate_distinct_witness :
  NoDup [1; 2; 3] /\
  exists ps, permutate [1; 2; 3] = Done ([1; 2; 3], ps) /\ NoDup ps.
Proof.
  assert (Hnd : NoDup [1; 2; 3]) by (apply (bool_decide_unpack _); reflexivity).
  split; [exact Hnd|].
  apply (permutate_distinct [1; 2; 3] Hnd).
Defined.

End PermuteFacts.

(** * Further properties of [main.go] *)

(** ** [unpackInt] on arbitrary slices *)

Lemma chunks7_bounds (bs : list byte) :
  0 <= chunks7 bs < 128 ^ Z.of_nat (length bs).
Proof.
  induction bs as [|b bs IH]; [cbn; lia|].
  cbn [chunks7 length]. rewrite Nat2Z.inj_succ, Z.pow_succ_r by lia.
  pose proof (chunk_range b 128 eq_refl). lia.
Qed.

Lemma encoded_value_bounds (enc : list byte) :
  (length enc <= 4)%nat -> - 2 ^ 27 <= encoded_value enc < 2 ^ 27.
Proof.
  intros Hlen. destruct enc as [|b rest]; [cbn; lia|].
  cbn [length] in Hlen. unfold encoded_value, magnitude.
  pose proof (chunk_range b 64 eq_refl) as Hb.
  pose proof (chunks7_bounds rest) as Hr.
  assert (128 ^ Z.of_nat (length rest) <= 128 ^ 3)
    by (apply Z.pow_le_mono_r; lia).
  unfold Z.lnot. destruct (sign_flag b); lia.
Qed.

(** Whenever [unpackInt] returns, it has decoded a well-formed encoding
    at the front of the backing array. *)
Lemma unpackInt_inversion (b rest : slice) (v : Z) (err : option error) :
  unpackInt b = Done (v, rest, err) ->
  exists enc : list byte,
    well_formed enc = true /\
    (1 <= length enc <= 4)%nat /\ (length enc <= len b)%nat /\
    take (length enc) (elems b ++ spare b) = enc /\
    v = encoded_value enc /\
    rest = Slice (drop (length enc) (elems b)) (spare b) /\
    (err = None <-> (4 <= len b)%nat).
Proof.
  destruct b as [m sp]. intros Hrun. cbn [elems spare].
  assert (Herr : length_error (Slice m sp) = None <-> (4 <= len (Slice m sp))%nat).
  { unfold length_error. destruct (decide _); split; intros; try lia; congruence. }
  destruct (decide (4 <= cap (Slice m sp))%nat) as [Hcap|Hcap].
  2:{ rewrite unpackInt_small_capacity in Hrun by lia. discriminate. }
  unfold cap in Hcap. cbn [elems spare] in Hcap.
  destruct (m ++ sp) as [|x0 [|x1 [|x2 [|x3 r]]]] eqn:Hback;
    cbn [length] in Hcap; try lia.
  rewrite (unpackInt_cases _ _ _ _ _ _ _ Hback) in Hrun. unfold slice_from in Hrun.
  destruct (continues x0) eqn:C0; cbn [negb] in Hrun.
  2:{ destruct (decide _) as [Hk|]; [|discriminate]. injection Hrun as <- <- <-.
      exists [x0]. cbn [well_formed length take]. rewrite C0.
      repeat split; try lia; try reflexivity; apply Herr. }
  destruct (continues x1) eqn:C1; cbn [negb] in Hrun.
  2:{ destruct (decide _) as [Hk|]; [|discriminate]. injection Hrun as <- <- <-.
      exists [x0; x1]. cbn [well_formed length take]. rewrite C0, C1.
      repeat split; try lia; try reflexivity; apply Herr. }
  destruct (continues x2) eqn:C2; cbn [negb] in Hrun.
  2:{ destruct (decide _) as [Hk|]; [|discriminate]. injection Hrun as <- <- <-.
      exists [x0; x1; x2]. cbn [well_formed length take]. rewrite C0, C1, C2.
      repeat split; try lia; try reflexivity; apply Herr. }
  destruct (continues x3) eqn:C3; cbn [negb] in Hrun; [discriminate|].
  destruct (decide _) as [Hk|]; [|discriminate]. injection Hrun as <- <- <-.
  exists [x0; x1; x2; x3]. cbn [well_formed length take]. rewrite C0, C1, C2, C3.
  rewrite take_0.
  repeat split; try lia; try reflexivity; apply Herr.
Qed.

(** X1: whenever [unpackInt] returns, the backing array starts with a
    well-formed encoding of one to four bytes that lies within the
    length of the slice; the value is the value of that encoding, the
    rest is the slice without those bytes (same spare capacity), and the
    error is nil exactly when the slice has at least four bytes. *)
Theorem unpackInt_returns_encoding (b rest : slice) (v : Z) (err : option error) :
  unpackInt b = Done (v, rest, err) ->
  exists enc : list byte,
    well_formed enc = true /\
    (1 <= length enc <= 4)%nat /\ (length enc <= len b)%nat /\
    take (length enc) (elems b ++ spare b) = enc /\
    v = encoded_value enc /\
    rest = Slice (drop (length enc) (elems b)) (spare b) /\
    (err = None <-> (4 <= len b)%nat).
Proof. apply unpackInt_inversion. Qed.

Lemma unpackInt_returns_encoding_witness :
  unpackInt (Slice (bytes_of [65; 9; 9; 9]%Z) []) =
    Done (-2, Slice (bytes_of [9; 9; 9]%Z) [], None) /\
  exists enc : list byte,
    well_formed enc = true /\
    (1 <= length enc <= 4)%nat /\
    (length enc <= len (Slice (bytes_of [65; 9; 9; 9]%Z) []))%nat /\
    take (length enc) (bytes_of [65; 9; 9; 9]%Z ++ []) = enc /\
    -2 = encoded_value enc /\
    Slice (bytes_of [9; 9; 9]%Z) [] =
      Slice (drop (length enc) (bytes_of [65; 9; 9; 9]%Z)) [] /\
    (@None error = None <-> (4 <= len (Slice (bytes_of [65; 9; 9; 9]%Z) []))%nat).
Proof.
  split; [vm_compute; reflexivity|].
  apply (unpackInt_returns_encoding (Slice (bytes_of [65; 9; 9; 9]%Z) [])).
  vm_compute. reflexivity.
Defined.

(** X2: a value returned by [unpackInt] has at most 27 magnitude bits:
    it lies between -2^27 and 2^27 - 1. *)
Theorem unpackInt_value_range (b rest : slice) (v : Z) (err : option error) :
  unpackInt b = Done (v, rest, err) -> - 2 ^ 27 <= v < 2 ^ 27.
Proof.
  intros Hrun.
  destruct (unpackInt_inversion b rest v err Hrun)
    as (enc & _ & Hlen & _ & _ & -> & _).
  apply encoded_value_bounds. lia.
Qed.

Lemma unpackInt_value_range_witness :
  unpackInt (Slice (bytes_of [255; 255; 255; 127]%Z) []) =
    Done (- 2 ^ 27, Slice [] [], None) /\
  - 2 ^ 27 <= - 2 ^ 27 < 2 ^ 27.
Proof.
  split; [vm_compute; reflexivity|].
  apply (unpackInt_value_range (Slice (bytes_of [255; 255; 255; 127]%Z) [])
           (Slice [] []) (- 2 ^ 27) None).
  vm_compute. reflexivity.
Defined.

Lemma encode_nonempty (v : Z) : (1 <= length (VarInt.encode v))%nat.
Proof.
  unfold VarInt.encode. destruct (VarInt.fold_sign v) as [sign m].
  destruct (m / 64 =? 0); cbn [length]; lia.
Qed.

(** X3: every value between -2^27 and 2^27 - 1 has an encoding of at
    most four bytes that [unpackInt] decodes to it in front of any tail
    that makes the buffer at least four bytes long. *)
Theorem unpackInt_onto (v : Z) :
  - 2 ^ 27 <= v < 2 ^ 27 ->
  exists enc : list byte,
    (1 <= length enc <= 4)%nat /\
    forall tail sp : list byte,
      (4 <= length (enc ++ tail))%nat ->
      unpackInt (Slice (enc ++ tail) sp) = Done (v, Slice tail sp, None).
Proof.
  intros Hv. exists (VarInt.encode v).
  destruct (encode_spec 3 v ltac:(lia) Hv) as (_ & Hle & _).
  pose proof (encode_nonempty v). split; [lia|].
  intros tail sp Hlen. apply unpackInt_encode; assumption.
Qed.

Lemma unpackInt_onto_witness :
  - 2 ^ 27 <= -65 < 2 ^ 27 /\
  exists enc : list byte,
    (1 <= length enc <= 4)%nat /\
    forall tail sp : list byte,
      (4 <= length (enc ++ tail))%nat ->
      unpackInt (Slice (enc ++ tail) sp) = Done (-65, Slice tail sp, None).
Proof. split; [lia|]. apply (unpackInt_onto (-65)). lia. Defined.

(** X4: two well-formed encodings back to back are decoded one after
    the other: the rest returned by the first call is the input of the
    second, provided at least four bytes remain for it. *)
Theorem unpackInt_sequence (enc1 enc2 tail sp : list byte) :
  well_formed enc1 = true -> (length enc1 <= 4)%nat ->
  well_formed enc2 = true -> (length enc2 <= 4)%nat ->
  (4 <= length (enc2 ++ tail))%nat ->
  exists rest : slice,
    unpackInt (Slice (enc1 ++ enc2 ++ tail) sp) =
      Done (encoded_value enc1, rest, None) /\
    unpackInt rest = Done (encoded_value enc2, Slice tail sp, None).
Proof.
  intros W1 L1 W2 L2 Hlen. exists (Slice (enc2 ++ tail) sp). split.
  - apply unpackInt_prefix; [assumption..|]. rewrite length_app. lia.
  - apply unpackInt_prefix; assumption.
Qed.

Lemma unpackInt_sequence_witness :
  well_formed (bytes_of [5]%Z) = true /\ (length (bytes_of [5]%Z) <= 4)%nat /\
  well_formed (bytes_of [193; 127]%Z) = true /\
  (length (bytes_of [193; 127]%Z) <= 4)%nat /\
  (4 <= length (bytes_of [193; 127]%Z ++ bytes_of [0; 0]%Z))%nat /\
  exists rest : slice,
    unpackInt (Slice (bytes_of [5]%Z ++ bytes_of [193; 127]%Z ++ bytes_of [0; 0]%Z) []) =
      Done (encoded_value (bytes_of [5]%Z), rest, None) /\
    unpackInt rest =
      Done (encoded_value (bytes_of [193; 127]%Z), Slice (bytes_of [0; 0]%Z) [], None).
Proof.
  split; [reflexivity|]. split; [cbn; lia|]. split; [reflexivity|].
  split; [cbn; lia|]. split; [cbn; lia|].
  apply (unpackInt_sequence (bytes_of [5]%Z) (bytes_of [193; 127]%Z)
           (bytes_of [0; 0]%Z) []);
    [reflexivity | cbn; lia | reflexivity | cbn; lia | cbn; lia].
Defined.

(** X5: on every slice whose capacity is below four, whatever its
    length, [unpackInt] faults at the reslice [b[:4]] instead of
    returning its length error. *)
Theorem unpackInt_capacity_fault (b : slice) :
  (cap b < 4)%nat -> unpackInt b = Panic (SliceBoundsOutOfRange 4 (cap b)).
Proof. apply unpackInt_small_capacity. Qed.

Lemma unpackInt_capacity_fault_witness :
  (cap (Slice (bytes_of [5; 6]%Z) (bytes_of [7]%Z)) < 4)%nat /\
  unpackInt (Slice (bytes_of [5; 6]%Z) (bytes_of [7]%Z)) =
    Panic (SliceBoundsOutOfRange 4 (cap (Slice (bytes_of [5; 6]%Z) (bytes_of [7]%Z)))).
Proof.
  split; [unfold cap; cbn; lia|].
  apply (unpackInt_capacity_fault (Slice (bytes_of [5; 6]%Z) (bytes_of [7]%Z))).
  unfold cap; cbn; lia.
Defined.

(** X6: on every slice whose backing array starts with four bytes that
    all carry the continuation flag, [unpackInt] faults at [list[4]]:
    no input makes it read a fifth chunk. *)
Theorem unpackInt_fifth_byte_fault (m sp : list byte) (x0 x1 x2 x3 : byte) (r : list byte) :
  m ++ sp = x0 :: x1 :: x2 :: x3 :: r ->
  continues x0 = true -> continues x1 = true ->
  continues x2 = true -> continues x3 = true ->
  unpackInt (Slice m sp) = Panic (IndexOutOfRange 4 4).
Proof.
  intros Hback C0 C1 C2 C3.
  rewrite (unpackInt_cases m sp x0 x1 x2 x3 r Hback), C0, C1, C2, C3. reflexivity.
Qed.

Lemma unpackInt_fifth_byte_fault_witness :
  bytes_of [128; 129]%Z ++ bytes_of [130; 255; 1; 2]%Z =
    to_byte 128 :: to_byte 129 :: to_byte 130 :: to_byte 255 :: bytes_of [1; 2]%Z /\
  continues (to_byte 128) = true /\ continues (to_byte 129) = true /\
  continues (to_byte 130) = true /\ continues (to_byte 255) = true /\
  unpackInt (Slice (bytes_of [128; 129]%Z) (bytes_of [130; 255; 1; 2]%Z)) =
    Panic (IndexOutOfRange 4 4).
Proof.
  repeat (split; [reflexivity|]).
  apply (unpackInt_fifth_byte_fault (bytes_of [128; 129]%Z) (bytes_of [130; 255; 1; 2]%Z)
           (to_byte 128) (to_byte 129) (to_byte 130) (to_byte 255) (bytes_of [1; 2]%Z));
    reflexivity.
Defined.

(** X7: the [for] of [unpackInt] never runs forever: on every slice
    the function returns or raises a bounds fault. *)
Theorem unpackInt_returns_or_faults (b : slice) :
  (exists v rest err, unpackInt b = Done (v, rest, err)) \/
  (exists f, unpackInt b = Panic f).
Proof.
  pose proof (unpackInt_terminates b) as Hterm.
  destruct (unpackInt b) as [[[v rest] err]|f|]; [left|right|contradiction]; eauto.
Qed.

(** ** Token packets beyond 32-bit tokens *)

Lemma u8_inj (a b : byte) : u8 a = u8 b -> a = b.
Proof. intros H. rewrite <- (to_byte_u8 a), <- (to_byte_u8 b), H. reflexivity. Qed.

(** Byte strings of the same length with the same big-endian value are
    the same. *)
Lemma be_value_inj (l1 l2 : list byte) :
  length l1 = length l2 -> be_value l1 = be_value l2 -> l1 = l2.
Proof.
  revert l2. induction l1 as [|b1 l1 IH] using rev_ind; intros l2 Hlen Hval.
  - destruct l2; [reflexivity|discriminate].
  - destruct l2 as [|b2 l2 _] using rev_ind.
    + rewrite length_app in Hlen. cbn in Hlen. lia.
    + rewrite !length_app in Hlen. cbn [length] in Hlen.
      rewrite !be_value_snoc in Hval.
      pose proof (u8_range b1). pose proof (u8_range b2).
      assert (be_value l1 = be_value l2 /\ u8 b1 = u8 b2) as [Hv Hb] by lia.
      rewrite (IH l2) by (assumption || lia). rewrite (u8_inj _ _ Hb). reflexivity.
Qed.

Lemma be_bytes_eq_iff (n : nat) (z z' : Z) :
  be_bytes n z = be_bytes n z' <-> z mod 256 ^ Z.of_nat n = z' mod 256 ^ Z.of_nat n.
Proof.
  rewrite <- !be_value_be_bytes. split; [intros ->; reflexivity|].
  apply be_value_inj. rewrite !length_be_bytes. reflexivity.
Qed.

Lemma be_value_4_bounds (bs : list byte) : 0 <= be_value (take 4 bs) < 2 ^ 32.
Proof.
  pose proof (be_value_bounds (take 4 bs)) as Hb.
  assert (256 ^ Z.of_nat (length (take 4 bs)) <= 256 ^ 4).
  { apply Z.pow_le_mono_r; [lia|]. rewrite length_take. lia. }
  lia.
Qed.

(** X8: the tokens returned by [unpackControlMessageWithToken] lie in
    0..2^32-1, with or without error. *)
Theorem unpackControlMessageWithToken_range (message : slice)
    (tokenServer tokenClient : Z) (err : option error) :
  unpackControlMessageWithToken message = Done (tokenServer, tokenClient, err) ->
  0 <= tokenServer < 2 ^ 32 /\ 0 <= tokenClient < 2 ^ 32.
Proof.
  destruct message as [m sp].
  destruct (decide (len (Slice m sp) < 12)%nat) as [Hlt|Hge].
  - unfold unpackControlMessageWithToken.
    destruct (decide _); [|contradiction]. intros [= <- <- _]. lia.
  - rewrite unpackControlMessageWithToken_long by slice_bounds.
    intros [= <- <- _]. split; apply be_value_4_bounds.
Qed.

Lemma unpackControlMessageWithToken_range_witness :
  unpackControlMessageWithToken (Slice (replicate 12 (to_byte 255)) []) =
    Done (2 ^ 32 - 1, 2 ^ 32 - 1, None) /\
  0 <= 2 ^ 32 - 1 < 2 ^ 32 /\ 0 <= 2 ^ 32 - 1 < 2 ^ 32.
Proof.
  split; [vm_compute; reflexivity|].
  apply (unpackControlMessageWithToken_range (Slice (replicate 12 (to_byte 255)) [])
           (2 ^ 32 - 1) (2 ^ 32 - 1) None).
  vm_compute. reflexivity.
Defined.

(** X9: [unpackControlMessageWithToken] looks at bytes 3..6 and 8..11
    only: overwriting any other byte of the message, the flag byte 0 and
    the subtype byte 7 included, does not change its result. *)
Theorem unpackControlMessageWithToken_other_bytes (message message' : slice)
    (i : nat) (x : byte) :
  store message i x = Done message' ->
  (i < 3 \/ i = 7 \/ 12 <= i)%nat ->
  unpackControlMessageWithToken message' = unpackControlMessageWithToken message.
Proof.
  destruct message as [m sp]. unfold store.
  destruct (decide (i < len (Slice m sp))%nat) as [Hi|]; [|discriminate].
  intros [= <-] Hpos. cbn [elems spare].
  destruct (decide (len (Slice m sp) < 12)%nat) as [Hlt|Hge].
  - unfold unpackControlMessageWithToken, len in *. cbn [elems] in *.
    rewrite length_insert.
    destruct (decide (length m < 12)%nat); [reflexivity|lia].
  - unfold len in Hge, Hi. cbn [elems] in Hge, Hi.
    rewrite !unpackControlMessageWithToken_long by (rewrite ?length_insert; lia).
    assert (H8 : take 4 (drop 8 (<[i := x]> m)) = take 4 (drop 8 m)).
    { destruct (decide (i < 8)%nat).
      - rewrite drop_insert_lt by lia. reflexivity.
      - rewrite drop_insert_ge, take_insert_ge by lia. reflexivity. }
    assert (H3 : take 4 (drop 3 (<[i := x]> m)) = take 4 (drop 3 m)).
    { destruct (decide (i < 3)%nat).
      - rewrite drop_insert_lt by lia. reflexivity.
      - rewrite drop_insert_ge, take_insert_ge by lia. reflexivity. }
    rewrite H8, H3. reflexivity.
Qed.

Lemma unpackControlMessageWithToken_other_bytes_witness :
  store (Slice (bytes_of [4; 0; 0; 1; 2; 3; 4; 5; 6; 7; 8; 9]%Z) []) 7 (to_byte 99) =
    Done (Slice (bytes_of [4; 0; 0; 1; 2; 3; 4; 99; 6; 7; 8; 9]%Z) []) /\
  (7 < 3 \/ 7 = 7 \/ 12 <= 7)%nat /\
  unpackControlMessageWithToken
    (Slice (bytes_of [4; 0; 0; 1; 2; 3; 4; 99; 6; 7; 8; 9]%Z) []) =
  unpackControlMessageWithToken
    (Slice (bytes_of [4; 0; 0; 1; 2; 3; 4; 5; 6; 7; 8; 9]%Z) []).
Proof.
  split; [vm_compute; reflexivity|]. split; [lia|].
  apply (unpackControlMessageWithToken_other_bytes
           (Slice (bytes_of [4; 0; 0; 1; 2; 3; 4; 5; 6; 7; 8; 9]%Z) [])
           (Slice (bytes_of [4; 0; 0; 1; 2; 3; 4; 99; 6; 7; 8; 9]%Z) [])
           7 (to_byte 99)); [vm_compute; reflexivity|lia].
Defined.

(** X10: for arbitrary [int] tokens, negative ones included, parsing the
    packet built by [packControlMessageWithToken s c] returns the low 32
    bits of the tokens with the roles swapped. *)
Theorem unpack_pack_control_low_bits (s c : Z) :
  exists b : slice,
    packControlMessageWithToken s c = Done b /\
    unpackControlMessageWithToken b = Done (c mod 2 ^ 32, s mod 2 ^ 32, None).
Proof.
  eexists. split; [apply packControlMessageWithToken_bytes|].
  rewrite unpackControlMessageWithToken_long.
  2:{ rewrite !length_app, !length_be_bytes. cbn. lia. }
  pose proof (length_be_bytes 4 s) as Ls.
  pose proof (length_be_bytes 4 c) as Lc.
  pose proof (be_value_be_bytes 4 s) as Vs.
  pose proof (be_value_be_bytes 4 c) as Vc.
  destruct (be_bytes 4 s) as [|s3 [|s2 [|s1 [|s0 [|]]]]]; try discriminate.
  destruct (be_bytes 4 c) as [|c3 [|c2 [|c1 [|c0 [|]]]]]; try discriminate.
  cbn [app take drop]. rewrite take_0, Vs, Vc. reflexivity.
Qed.

(** X11: two calls of [packControlMessageWithToken] build the same
    packet exactly when their server tokens agree in the low 32 bits and
    their client tokens agree in the low 32 bits. *)
Theorem packControlMessageWithToken_eq_iff (s c s' c' : Z) :
  packControlMessageWithToken s c = packControlMessageWithToken s' c' <->
  s mod 2 ^ 32 = s' mod 2 ^ 32 /\ c mod 2 ^ 32 = c' mod 2 ^ 32.
Proof.
  rewrite !packControlMessageWithToken_bytes.
  change (2 ^ 32) with (256 ^ Z.of_nat 4). rewrite <- !be_bytes_eq_iff.
  split.
  - intros H.
    apply (f_equal (fun o => match o with Done b => drop 3 (elems b) | _ => [] end)) in H.
    cbn [elems drop app] in H.
    apply app_inj_1 in H as [Hs H]; [|rewrite !length_be_bytes; reflexivity].
    apply (f_equal (drop 1)) in H. cbn [drop] in H.
    apply app_inj_1 in H as [Hc _]; [|rewrite !length_be_bytes; reflexivity].
    split; assumption.
  - intros [-> ->]. reflexivity.
Qed.

(** X12: two calls of [headerConnectionless] build the same header
    exactly when their server tokens agree in the low 32 bits and their
    client tokens agree in the low 32 bits. *)
Theorem headerConnectionless_eq_iff (s c s' c' : Z) :
  headerConnectionless s c = headerConnectionless s' c' <->
  s mod 2 ^ 32 = s' mod 2 ^ 32 /\ c mod 2 ^ 32 = c' mod 2 ^ 32.
Proof.
  rewrite !headerConnectionless_bytes.
  change (2 ^ 32) with (256 ^ Z.of_nat 4). rewrite <- !be_bytes_eq_iff.
  split.
  - intros H.
    apply (f_equal (fun o => match o with Done b => drop 1 (elems b) | _ => [] end)) in H.
    cbn [elems drop app] in H.
    apply app_inj_1 in H as [Hs Hc]; [|rewrite !length_be_bytes; reflexivity].
    split; assumption.
  - intros [-> ->]. reflexivity.
Qed.
